(** * Classical ciphers and attacks of death_ssad (ciphers.js, attacks.js)

    A shallow embedding of the cipher module (César, Affine, Playfair,
    Hill 3x3) and of the exhaustive and dictionary attacks built on it.

    Modelling conventions:
    - a JavaScript number holding an integer is a [Z]; the remainder
      operator [%] is [Z.rem] (its sign follows the dividend, as in JS);
    - a JavaScript string is a [list ascii] of its code units
      ([text.split('')] and [join('')] are the identity on that list);
      [toUpperCase] / [toLowerCase] are the ASCII case maps;
    - a thrown exception is [None]: every function that may throw returns
      an [option]. *)

From Stdlib Require Import ZArith Lia Ascii String List Bool Znumtheory Sorted.
Import ListNotations.
Open Scope Z_scope.

Definition text := list ascii.

(** String literal helper, for concrete inputs. *)
Definition str (s : string) : text := list_ascii_of_string s.

(** Character code ([ch.charCodeAt(0)]) and [String.fromCharCode]. *)
Definition code (ch : ascii) : Z := Z.of_nat (nat_of_ascii ch).
Definition fromCharCode (n : Z) : ascii := ascii_of_nat (Z.to_nat n).

(** ** Arithmetic utilities *)

(** [gcd(a, b)]: Euclid's loop [while (b !== 0) [a, b] = [b, a % b]].
    The loop runs at most [|b| + 1] times, since [|a % b| < |b|], which is
    the fuel given below. *)
Fixpoint gcd_loop (fuel : nat) (a b : Z) : Z :=
  match fuel with
  | O => a
  | S f => if b =? 0 then a else gcd_loop f b (Z.rem a b)
  end.

Definition gcd (a b : Z) : Z := gcd_loop (S (Z.to_nat (Z.abs b))) a b.

(** [modInverse(a, m)]: normalise [a], then search [x = 1 .. m-1]. *)
Fixpoint modInverse_loop (fuel : nat) (a m x : Z) : option Z :=
  match fuel with
  | O => None
  | S f => if Z.rem (a * x) m =? 1 then Some x else modInverse_loop f a m (x + 1)
  end.

Definition modInverse (a m : Z) : option Z :=
  let a := Z.rem (Z.rem a m + m) m in
  modInverse_loop (Z.to_nat (m - 1)) a m 1.

(** [mod(n, m)]: [((n % m) + m) % m] ([mod] is a reserved word of Rocq). *)
Definition mod_ (n m : Z) : Z := Z.rem (Z.rem n m + m) m.

(** ** César *)

Definition is_lower (ch : ascii) : bool := (97 <=? code ch) && (code ch <=? 122).
Definition is_upper (ch : ascii) : bool := (65 <=? code ch) && (code ch <=? 90).

Definition caesarEncrypt (t : text) (shift : Z) : text :=
  map (fun ch =>
         if is_lower ch then fromCharCode (mod_ (code ch - 97 + shift) 26 + 97)
         else if is_upper ch then fromCharCode (mod_ (code ch - 65 + shift) 26 + 65)
         else ch) t.

Definition caesarDecrypt (t : text) (shift : Z) : text :=
  caesarEncrypt t (- shift).

(** ** Affine *)

Definition affineEncrypt (t : text) (a b : Z) : option text :=
  if negb (gcd a 26 =? 1) then None
  else Some (map (fun ch =>
         if is_lower ch then
           let x := code ch - 97 in
           let y := mod_ (a * x + b) 26 in
           fromCharCode (y + 97)
         else if is_upper ch then
           let x := code ch - 65 in
           let y := mod_ (a * x + b) 26 in
           fromCharCode (y + 65)
         else ch) t).

Definition affineDecrypt (t : text) (a b : Z) : option text :=
  match modInverse a 26 with
  | None => None
  | Some aInv =>
      Some (map (fun ch =>
         if is_lower ch then
           let y := code ch - 97 in
           let x := mod_ (aInv * (y - b)) 26 in
           fromCharCode (x + 97)
         else if is_upper ch then
           let y := code ch - 65 in
           let x := mod_ (aInv * (y - b)) 26 in
           fromCharCode (x + 65)
         else ch) t)
  end.

(** ** String helpers *)

(** [toUpperCase] / [toLowerCase] on the ASCII letters. *)
Definition toUpperCase (t : text) : text :=
  map (fun ch => if is_lower ch then fromCharCode (code ch - 32) else ch) t.

Definition toLowerCase (t : text) : text :=
  map (fun ch => if is_upper ch then fromCharCode (code ch + 32) else ch) t.

(** [.replace(/J/g, 'I')] *)
Definition replaceJ (t : text) : text :=
  map (fun ch => if ascii_dec ch "J"%char then "I"%char else ch) t.

(** [.replace(/[^A-Z]/g, '')] *)
Definition onlyAZ (t : text) : text := filter is_upper t.

Definition text_eqb (s t : text) : bool :=
  if list_eq_dec ascii_dec s t then true else false.

(** [arr.slice(s, e)] on indices inside the array. *)
Definition slice {A} (l : list A) (s e : nat) : list A := firstn (e - s) (skipn s l).

(** ** Playfair *)

Definition alphabet : text := str "ABCDEFGHIKLMNOPQRSTUVWXYZ".

(** The two [for] loops of [buildPlayfairMatrix]: push each character not
    seen yet.  The set [seen] always holds exactly the characters pushed to
    [matrix], so membership in [matrix] stands for [seen.has]. *)
Fixpoint pushUnseen (matrix : text) (l : text) : text :=
  match l with
  | [] => matrix
  | ch :: l' =>
      if in_dec ascii_dec ch matrix then pushUnseen matrix l'
      else pushUnseen (matrix ++ [ch]) l'
  end.

Definition grid := list (list ascii).

Definition playfairLetters (key : text) : text :=
  let keyUpper := onlyAZ (replaceJ (toUpperCase key)) in
  pushUnseen (pushUnseen [] keyUpper) alphabet.

Definition toGrid (matrix : text) : grid :=
  map (fun i => slice matrix (i * 5) ((i + 1) * 5)) (seq 0 5).

Definition buildPlayfairMatrix (key : text) : grid := toGrid (playfairLetters key).

(** [matrix[r][c]]; [undefined] is [None]. *)
Definition gget (m : grid) (r c : Z) : option ascii :=
  if (r <? 0) || (c <? 0) then None
  else match nth_error m (Z.to_nat r) with
       | Some row => nth_error row (Z.to_nat c)
       | None => None
       end.

Definition opt_ascii_eqb (x y : option ascii) : bool :=
  match x, y with
  | Some a, Some b => if ascii_dec a b then true else false
  | None, None => true
  | _, _ => false
  end.

(** [findPosition(matrix, char)]: rows 0..4, then columns 0..4;
    [char] may be [undefined] (an index past the end of the text). *)
Fixpoint findCol (m : grid) (ch : option ascii) (row : Z) (cols : list Z) : option (Z * Z) :=
  match cols with
  | [] => None
  | c :: cs => if opt_ascii_eqb (gget m row c) ch then Some (row, c) else findCol m ch row cs
  end.

Fixpoint findRow (m : grid) (ch : option ascii) (rows : list Z) : option (Z * Z) :=
  match rows with
  | [] => None
  | r :: rs =>
      match findCol m ch r [0; 1; 2; 3; 4] with
      | Some p => Some p
      | None => findRow m ch rs
      end
  end.

Definition findPosition (m : grid) (ch : option ascii) : option (Z * Z) :=
  findRow m ch [0; 1; 2; 3; 4].

(** [result += matrix[r][c]]: an [undefined] cell appends ["undefined"]. *)
Definition cell (m : grid) (r c : Z) : text :=
  match gget m r c with
  | Some ch => [ch]
  | None => str "undefined"
  end.

(** [preparePlayfairText]: the [while] loop over the cleaned text. *)
Fixpoint digrams (t : text) : list (ascii * ascii) :=
  match t with
  | [] => []
  | a :: rest =>
      match rest with
      | [] => [(a, "X"%char)]
      | b :: rest' =>
          if ascii_dec a b then (a, "X"%char) :: digrams rest
          else (a, b) :: digrams rest'
      end
  end.

Definition preparePlayfairText (t : text) : list (ascii * ascii) :=
  digrams (onlyAZ (replaceJ (toUpperCase t))).

(** One iteration of the encryption loop; [const [row, col] = null]
    throws, which is [None]. *)
Definition encDigram (m : grid) (x y : option ascii) : option text :=
  match findPosition m x, findPosition m y with
  | Some (row1, col1), Some (row2, col2) =>
      Some (if row1 =? row2 then
              cell m row1 (Z.rem (col1 + 1) 5) ++ cell m row2 (Z.rem (col2 + 1) 5)
            else if col1 =? col2 then
              cell m (Z.rem (row1 + 1) 5) col1 ++ cell m (Z.rem (row2 + 1) 5) col2
            else cell m row1 col2 ++ cell m row2 col1)
  | _, _ => None
  end.

Definition decDigram (m : grid) (x y : option ascii) : option text :=
  match findPosition m x, findPosition m y with
  | Some (row1, col1), Some (row2, col2) =>
      Some (if row1 =? row2 then
              cell m row1 (mod_ (col1 - 1) 5) ++ cell m row2 (mod_ (col2 - 1) 5)
            else if col1 =? col2 then
              cell m (mod_ (row1 - 1) 5) col1 ++ cell m (mod_ (row2 - 1) 5) col2
            else cell m row1 col2 ++ cell m row2 col1)
  | _, _ => None
  end.

Fixpoint encLoop (m : grid) (ds : list (ascii * ascii)) : option text :=
  match ds with
  | [] => Some []
  | (x, y) :: ds' =>
      match encDigram m (Some x) (Some y), encLoop m ds' with
      | Some s, Some r => Some (s ++ r)
      | _, _ => None
      end
  end.

Definition playfairEncrypt (t key : text) : option text :=
  let matrix := buildPlayfairMatrix key in
  encLoop matrix (preparePlayfairText t).

(** The decryption loop [for (i = 0; i < len; i += 2)] reads [text[i]]
    and [text[i + 1]], the latter [undefined] past the end. *)
Fixpoint decLoop (m : grid) (t : text) : option text :=
  match t with
  | [] => Some []
  | [x] => decDigram m (Some x) None
  | x :: y :: r =>
      match decDigram m (Some x) (Some y), decLoop m r with
      | Some s, Some r' => Some (s ++ r')
      | _, _ => None
      end
  end.

Definition playfairDecrypt (t key : text) : option text :=
  let matrix := buildPlayfairMatrix key in
  decLoop matrix (onlyAZ (toUpperCase t)).

(** ** Hill 3x3 *)

Record mat3 := M3 {
  m00 : Z; m01 : Z; m02 : Z;
  m10 : Z; m11 : Z; m12 : Z;
  m20 : Z; m21 : Z; m22 : Z }.





(** [matrixVectorMult3]: [vector[j]] past the end is [undefined], and the
    sum becomes [NaN], written [None]. *)
Definition rowSum (m : mat3) (i : nat) (v : list Z) : option Z :=
  let '(a, b, c) :=
    match i with
    | O => (m00 m, m01 m, m02 m)
    | 1%nat => (m10 m, m11 m, m12 m)
    | _ => (m20 m, m21 m, m22 m)
    end in
  match nth_error v 0, nth_error v 1, nth_error v 2 with
  | Some v0, Some v1, Some v2 => Some (0 + a * v0 + b * v1 + c * v2)
  | _, _, _ => None
  end.

Definition matrixVectorMult3 (m : mat3) (v : list Z) : list (option Z) :=
  map (fun i => option_map (fun s => mod_ s 26) (rowSum m i v)) [0; 1; 2]%nat.

Definition textToVector (block : text) : list Z :=
  map (fun ch =>
         let c := code (hd "000"%char (toUpperCase [ch])) - 65 in
         if (0 <=? c) && (c <? 26) then c else 0) block.

(** [String.fromCharCode(NaN)] is the character of code 0. *)
Definition vectorToText (v : list (option Z)) : text :=
  map (fun n => match n with
                | Some n => fromCharCode (mod_ n 26 + 65)
                | None => "000"%char
                end) v.

(** [text.substr(i, 3)] for [i = 0, 3, 6, ...]. *)
Fixpoint blocks3 (t : text) : list text :=
  match t with
  | a :: b :: c :: r => [a; b; c] :: blocks3 r
  | [] => []
  | _ => [t]
  end.

(** [while (text.length % 3 !== 0) text += 'X'] *)
Definition pad3 (t : text) : text :=
  t ++ repeat "X"%char ((3 - List.length t mod 3) mod 3)%nat.

(** The body of both loops: [vectorToText(matrixVectorMult3(m, textToVector(block)))]. *)
Definition hillBlock (m : mat3) (block : text) : text :=
  vectorToText (matrixVectorMult3 m (textToVector block)).

Definition hillEncrypt (t : text) (keyMatrix : mat3) : text :=
  let t := pad3 (onlyAZ (toUpperCase t)) in
  concat (map (hillBlock keyMatrix) (blocks3 t)).


(** ** Attacks (attacks.js) *)

Definition zrange (n : nat) : list Z := map Z.of_nat (seq 0 n).

Definition bruteForceCaesar (ciphertext : text) : list (Z * text) :=
  map (fun shift => (shift, caesarDecrypt ciphertext shift)) (zrange 26).

Definition validA : list Z := [1; 3; 5; 7; 9; 11; 15; 17; 19; 21; 23; 25].

(** The [try]/[catch] around [affineDecrypt] drops a key that throws. *)
Definition bruteForceAffine (ciphertext : text) : list (Z * Z * text) :=
  flat_map (fun a =>
    flat_map (fun b =>
      match affineDecrypt ciphertext a b with
      | Some t => [(a, b, t)]
      | None => []
      end) (zrange 26)) validA.

(** [params]: each field is [undefined] ([None]) or set. *)
Record params := Params {
  p_shift : option Z;
  p_a : option Z;
  p_b : option Z;
  p_key : option text;
  p_keyMatrix : option mat3 }.

Definition noParams : params := Params None None None None None.

(** [x || d] on a number ([0] and [undefined] are falsy) and on a string
    ([''] is falsy). *)
Definition orNum (x : option Z) (d : Z) : Z :=
  match x with Some n => if n =? 0 then d else n | None => d end.

Definition orStr (x : option text) (d : text) : text :=
  match x with Some (_ :: _ as s) => s | _ => d end.

Definition orMat (x : option mat3) (d : mat3) : mat3 :=
  match x with Some k => k | None => d end.

Definition defaultHillKey : mat3 := M3 6 24 1 13 16 10 20 17 15.

(** The [switch (cipher)] of [dictionaryDirectAttack]. *)
Definition encryptWord (cipher : string) (p : params) (word : text) : option text :=
  if String.eqb cipher "caesar" then Some (caesarEncrypt word (orNum (p_shift p) 3))
  else if String.eqb cipher "affine" then affineEncrypt word (orNum (p_a p) 5) (orNum (p_b p) 8)
  else if String.eqb cipher "playfair" then playfairEncrypt word (orStr (p_key p) (str "SECRET"))
  else if String.eqb cipher "hill" then Some (hillEncrypt word (orMat (p_keyMatrix p) defaultHillKey))
  else Some word.

Fixpoint dictionaryDirectAttack (ciphertext : text) (words : list text)
    (cipher : string) (p : params) : list text :=
  match words with
  | [] => []
  | word :: ws =>
      match encryptWord cipher p word with
      | Some encrypted =>
          if text_eqb (toLowerCase encrypted) (toLowerCase ciphertext)
          then word :: dictionaryDirectAttack ciphertext ws cipher p
          else dictionaryDirectAttack ciphertext ws cipher p
      | None => dictionaryDirectAttack ciphertext ws cipher p
      end
  end.




(** [dictionaryAttack]. The file read by [fs.readFileSync(dictPath, 'utf8')]
    is given by its contents; a candidate is any value with its [text]
    field, and [{...candidate, matched: text}] is the pair of the candidate
    and [matched]. [String.prototype.trim] removes the white space and line
    terminators, which among the code units 0-255 are 9-13, 32 and 160. *)
Definition is_ws (ch : ascii) : bool :=
  let n := code ch in
  ((9 <=? n) && (n <=? 13)) || (n =? 32) || (n =? 160).

Fixpoint dropWs (t : text) : text :=
  match t with
  | ch :: r => if is_ws ch then dropWs r else t
  | [] => []
  end.

Definition trim (t : text) : text := rev (dropWs (rev (dropWs t))).

(** [s.split('\n')] *)
Fixpoint splitNl (t : text) : list text :=
  match t with
  | [] => [[]]
  | ch :: r =>
      let rest := splitNl r in
      if Ascii.eqb ch "010"%char then [] :: rest
      else match rest with
           | w :: ws => (ch :: w) :: ws
           | [] => [[ch]]
           end
  end.

Definition dictWords (contents : text) : list text :=
  filter (fun w => match w with [] => false | _ => true end)
    (map (fun w => toLowerCase (trim w)) (splitNl contents)).

Definition dictionaryAttack {A : Type} (candText : A -> text)
    (candidates : list A) (contents : text) : list (A * text) :=
  let wordSet := dictWords contents in
  flat_map (fun candidate =>
    let t := toLowerCase (candText candidate) in
    if existsb (text_eqb t) wordSet then [(candidate, t)] else []) candidates.

Example caesar_khoor : caesarEncrypt (str "hello") 3 = str "khoor".
Proof. reflexivity. Qed.

Example affine_hello : affineEncrypt (str "HELLO") 5 8 = Some (str "RCLLA").
Proof. reflexivity. Qed.

Example affine_back : affineDecrypt (str "RCLLA") 5 8 = Some (str "HELLO").
Proof. reflexivity. Qed.

Example gcd_neg : gcd (-1) 26 = -1.
Proof. reflexivity. Qed.


(** * Properties *)

(** ** Arithmetic helpers *)

(** [mod(n, m)] is the Euclidean remainder for a positive [m]. *)
Lemma mod_spec n m : 0 < m -> mod_ n m = n mod m.
Proof.
  intros Hm. unfold mod_.
  pose proof (Z.rem_bound_abs n m ltac:(lia)) as Hb.
  rewrite Z.rem_mod_nonneg by lia.
  rewrite Z.add_mod, Z.mod_same, Z.add_0_r, Z.mod_mod by lia.
  pose proof (Z.quot_rem' n m) as Hq. rewrite Hq at 2.
  rewrite Z.add_comm, Z.mul_comm, Z.mod_add by lia. reflexivity.
Qed.

Lemma mod26 n : mod_ n 26 = n mod 26.
Proof. apply mod_spec. lia. Qed.

Lemma mod5 n : mod_ n 5 = n mod 5.
Proof. apply mod_spec. lia. Qed.

Lemma zrange_in (n : nat) r : 0 <= r < Z.of_nat n -> In r (zrange n).
Proof.
  intros Hr. unfold zrange. apply in_map_iff. exists (Z.to_nat r).
  split; [lia | apply in_seq; lia].
Qed.

(** A property of the 26 residues checked by evaluation. *)
Lemma check26 (f : Z -> bool) :
  forallb f (zrange 26) = true -> forall r, 0 <= r < 26 -> f r = true.
Proof.
  intros H r Hr. rewrite forallb_forall in H. apply H, zrange_in. lia.
Qed.

Lemma gcd_small_ok :
  forallb (fun r => gcd_loop 26 26 r =? Z.gcd r 26) (zrange 26) = true.
Proof. vm_compute. reflexivity. Qed.

Lemma gcd_loop_S f a b :
  gcd_loop (S f) a b = if b =? 0 then a else gcd_loop f b (Z.rem a b).
Proof. reflexivity. Qed.

(** On a non-negative [a], the code's [gcd(a, 26)] is the gcd. *)
Lemma gcd_26_nonneg a : 0 <= a -> gcd a 26 = Z.gcd a 26.
Proof.
  intros Ha. unfold gcd.
  replace (S (Z.to_nat (Z.abs 26))) with 27%nat by reflexivity.
  rewrite gcd_loop_S. change (26 =? 0) with false. cbv beta iota.
  rewrite Z.rem_mod_nonneg by lia.
  pose proof (check26 _ gcd_small_ok (a mod 26)) as H.
  rewrite Z.eqb_eq in H. rewrite H by (apply Z.mod_pos_bound; lia).
  rewrite Z.gcd_mod by lia. apply Z.gcd_comm.
Qed.

Definition inv_ok (r : Z) : bool :=
  negb (Z.gcd r 26 =? 1) ||
  match modInverse_loop 25 r 26 1 with
  | Some x => (r * x) mod 26 =? 1
  | None => false
  end.

Lemma inv_small_ok : forallb inv_ok (zrange 26) = true.
Proof. vm_compute. reflexivity. Qed.

(** [modInverse(a, 26)] finds an inverse of every [a] coprime to 26. *)
Lemma modInverse_26 a :
  Z.gcd a 26 = 1 -> exists x, modInverse a 26 = Some x /\ (a * x) mod 26 = 1.
Proof.
  intros Hg. unfold modInverse.
  change (Z.rem (Z.rem a 26 + 26) 26) with (mod_ a 26). rewrite mod26.
  assert (Hr : 0 <= a mod 26 < 26) by (apply Z.mod_pos_bound; lia).
  pose proof (check26 _ inv_small_ok _ Hr) as H. unfold inv_ok in H.
  rewrite Z.gcd_mod, Z.gcd_comm, Hg in H by lia. cbn [Z.eqb negb orb] in H.
  change (Z.to_nat (26 - 1)) with 25%nat.
  destruct (modInverse_loop 25 (a mod 26) 26 1) as [x|]; [|discriminate].
  exists x. split; [reflexivity|].
  apply Z.eqb_eq in H. rewrite Z.mul_mod_idemp_l in H by lia. exact H.
Qed.

(** ** Characters *)

Lemma code_bound ch : 0 <= code ch < 256.
Proof. unfold code. pose proof (nat_ascii_bounded ch). lia. Qed.

Lemma fromCharCode_code ch : fromCharCode (code ch) = ch.
Proof. unfold fromCharCode, code. rewrite Nat2Z.id. apply ascii_nat_embedding. Qed.

Lemma code_fromCharCode n : 0 <= n < 256 -> code (fromCharCode n) = n.
Proof.
  intros Hn. unfold fromCharCode, code.
  rewrite nat_ascii_embedding by lia. lia.
Qed.

Lemma is_lower_iff ch : is_lower ch = true <-> 97 <= code ch <= 122.
Proof. unfold is_lower. rewrite andb_true_iff, !Z.leb_le. tauto. Qed.

Lemma is_upper_iff ch : is_upper ch = true <-> 65 <= code ch <= 90.
Proof. unfold is_upper. rewrite andb_true_iff, !Z.leb_le. tauto. Qed.

Lemma is_lower_false ch : is_lower ch = false -> ~ (97 <= code ch <= 122).
Proof. intros H H'. apply is_lower_iff in H'. congruence. Qed.

Lemma is_upper_false ch : is_upper ch = false -> ~ (65 <= code ch <= 90).
Proof. intros H H'. apply is_upper_iff in H'. congruence. Qed.

(** The letter of code [base + n mod 26]. *)
Lemma letter_code base n :
  (base = 97 \/ base = 65) -> code (fromCharCode (n mod 26 + base)) = n mod 26 + base.
Proof.
  intros Hb. apply code_fromCharCode.
  pose proof (Z.mod_pos_bound n 26). lia.
Qed.

Ltac char_cases ch :=
  let Hl := fresh "Hl" in let Hu := fresh "Hu" in
  destruct (is_lower ch) eqn:Hl;
  [ apply is_lower_iff in Hl
  | apply is_lower_false in Hl;
    destruct (is_upper ch) eqn:Hu;
    [ apply is_upper_iff in Hu | apply is_upper_false in Hu ] ].

Lemma fromCharCode_eq n ch : n = code ch -> fromCharCode n = ch.
Proof. intros ->. apply fromCharCode_code. Qed.

(** [lia] after turning [mod] and [/] by constants into equations. *)
Ltac zlia := Z.to_euclidean_division_equations; lia.

(** Settles one character of a César or Affine transform: the letter
    tests become arithmetic on codes, decided by [lia], innermost first. *)
Ltac leb_step :=
  match goal with
  | |- context [?a <=? ?b] =>
      lazymatch a with context [if _ then _ else _] => fail | _ =>
      lazymatch b with context [if _ then _ else _] => fail | _ =>
        destruct (Z.leb_spec a b) end end
  end;
  cbn [andb];
  repeat match goal with
         | |- context [code (fromCharCode ?e)] => rewrite (code_fromCharCode e) by zlia
         end.

Ltac char_split ch :=
  pose proof (code_bound ch);
  unfold is_lower, is_upper; rewrite ?mod26;
  repeat (leb_step; try zlia).

Ltac solve_char ch :=
  char_split ch; first [reflexivity | apply fromCharCode_eq; zlia].

(** The arithmetic of one Affine letter: [aInv] undoes [a]. *)
Lemma affine_inv_step a b x n k :
  (a * x) mod 26 = 1 -> 0 <= n < 26 ->
  (x * ((a * n + b) mod 26 + k - k - b)) mod 26 = n.
Proof.
  intros H Hn. rewrite Z.add_simpl_r.
  rewrite <- Z.mul_mod_idemp_r, Zminus_mod_idemp_l by lia.
  replace (a * n + b - b) with (a * n) by ring.
  rewrite Z.mul_mod_idemp_r by lia.
  replace (x * (a * n)) with ((a * x) * n) by ring.
  rewrite <- Z.mul_mod_idemp_l, H by lia.
  rewrite Z.mul_1_l. apply Z.mod_small. exact Hn.
Qed.


(** ** Affine *)

(** C6 (amended): for a non-negative multiplier [a], [affineEncrypt] throws
    exactly when [gcd(a, 26) <> 1]; it accepts every [a] of
    [1, 3, 5, 7, 9, 11, 15, 17, 19, 21, 23, 25] and every [a >= 0]
    congruent to one of them modulo 26. *)
Theorem affineEncrypt_fails_iff (T : text) (a b : Z) :
  0 <= a -> (affineEncrypt T a b = None <-> Z.gcd a 26 <> 1).
Proof.
  intros Ha. unfold affineEncrypt. rewrite gcd_26_nonneg by exact Ha.
  destruct (Z.gcd a 26 =? 1) eqn:E; cbn [negb].
  - apply Z.eqb_eq in E. split; [discriminate | intros H; contradiction].
  - apply Z.eqb_neq in E. split; [intros _; exact E | reflexivity].
Qed.

(** C2: for every multiplier [a > 0] coprime to 26 and every [b],
    encryption succeeds and decryption gives the text back. *)
Theorem affine_roundtrip (T : text) (a b : Z) :
  0 < a -> Z.gcd a 26 = 1 ->
  exists C, affineEncrypt T a b = Some C /\ affineDecrypt C a b = Some T.
Proof.
  intros Ha Hg. destruct (modInverse_26 a Hg) as [x [Hx Hax]].
  unfold affineEncrypt. rewrite gcd_26_nonneg, Hg by lia. cbn [Z.eqb Pos.eqb negb].
  eexists. split; [reflexivity|].
  unfold affineDecrypt. rewrite Hx. f_equal. rewrite map_map.
  transitivity (map (fun ch => ch) T); [|apply map_id].
  apply map_ext. intros ch. char_split ch;
    first [reflexivity
          | apply fromCharCode_eq; rewrite affine_inv_step by (exact Hax || lia); lia].
Qed.

(** ** Text preparation *)

Definition all_upper (t : text) : Prop := Forall (fun ch => is_upper ch = true) t.

Lemma toUpperCase_upper t : all_upper t -> toUpperCase t = t.
Proof.
  induction 1 as [|ch t Hch _ IH]; [reflexivity|].
  cbn [toUpperCase map]. fold (toUpperCase t). rewrite IH. f_equal.
  apply is_upper_iff in Hch. unfold is_lower.
  destruct (Z.leb_spec 97 (code ch)); [lia|reflexivity].
Qed.

Lemma onlyAZ_upper t : all_upper t -> onlyAZ t = t.
Proof.
  induction 1 as [|ch t Hch _ IH]; [reflexivity|].
  cbn [onlyAZ filter]. fold (onlyAZ t). rewrite Hch, IH. reflexivity.
Qed.

Lemma onlyAZ_all_upper t : all_upper (onlyAZ t).
Proof. apply Forall_forall. intros ch H. apply filter_In in H. apply H. Qed.




(** ** Blocks of three *)




(** ** Hill algebra *)



Lemma eqm_1_mul x y z : (x * y) mod 26 = 1 -> eqm 26 (x * y * z) z.
Proof.
  intros H. unfold eqm. rewrite Z.mul_mod, H by lia.
  rewrite Z.mul_1_l, Z.mod_mod by lia. reflexivity.
Qed.

#[local] Existing Instances eqm_setoid Zplus_eqm Zminus_eqm Zmult_eqm Zopp_eqm.



(** ** Hill blocks *)














(** ** The Playfair grid *)

Fixpoint nodupb (l : text) : bool :=
  match l with
  | [] => true
  | x :: r => negb (existsb (Ascii.eqb x) r) && nodupb r
  end.

Lemma nodupb_NoDup l : nodupb l = true -> NoDup l.
Proof.
  induction l as [|x r IH]; cbn; intros H; [constructor|].
  apply andb_true_iff in H as [H1 H2]. constructor; [|apply IH, H2].
  intros Hin. apply negb_true_iff in H1.
  assert (existsb (Ascii.eqb x) r = true) as E.
  { apply existsb_exists. exists x. split; [exact Hin | apply Ascii.eqb_refl]. }
  congruence.
Qed.

Lemma alphabet_NoDup : NoDup alphabet.
Proof. apply nodupb_NoDup. vm_compute. reflexivity. Qed.

Lemma alphabet_letters :
  forallb (fun ch => is_upper ch && negb (Ascii.eqb ch "J"%char)) alphabet = true.
Proof. vm_compute. reflexivity. Qed.

Lemma alphabet_upper ch : In ch alphabet -> is_upper ch = true /\ ch <> "J"%char.
Proof.
  intros Hin. pose proof alphabet_letters as H. rewrite forallb_forall in H.
  specialize (H ch Hin). apply andb_true_iff in H as [H1 H2].
  split; [exact H1|]. intros ->. discriminate H2.
Qed.

Lemma upper_codes_ok :
  forallb (fun r => (r =? 9) || existsb (Ascii.eqb (fromCharCode (r + 65))) alphabet)
          (zrange 26) = true.
Proof. vm_compute. reflexivity. Qed.

(** Every uppercase letter but [J] is in the alphabet of the grid. *)
Lemma upper_in_alphabet ch : is_upper ch = true -> ch <> "J"%char -> In ch alphabet.
Proof.
  intros Hu HJ. apply is_upper_iff in Hu.
  pose proof (check26 _ upper_codes_ok (code ch - 65) ltac:(lia)) as H. cbv beta in H.
  replace (code ch - 65 + 65) with (code ch) in H by ring.
  rewrite fromCharCode_code in H.
  apply orb_true_iff in H as [H|H].
  - apply Z.eqb_eq in H. exfalso. apply HJ.
    rewrite <- (fromCharCode_code ch). replace (code ch) with 74 by lia. reflexivity.
  - apply existsb_exists in H as [a [Ha E]]. apply Ascii.eqb_eq in E. subst. exact Ha.
Qed.

Lemma pushUnseen_In acc l ch : In ch (pushUnseen acc l) <-> In ch acc \/ In ch l.
Proof.
  revert acc. induction l as [|x l IH]; intros acc; cbn [pushUnseen].
  - cbn. tauto.
  - destruct (in_dec ascii_dec x acc) as [Hx|Hx]; rewrite IH.
    + cbn. split; [tauto|]. intros [H|[<-|H]]; auto.
    + rewrite in_app_iff. cbn. tauto.
Qed.

Lemma pushUnseen_NoDup acc l : NoDup acc -> NoDup (pushUnseen acc l).
Proof.
  revert acc. induction l as [|x l IH]; intros acc Hacc; cbn [pushUnseen]; [exact Hacc|].
  destruct (in_dec ascii_dec x acc) as [Hx|Hx]; apply IH; [exact Hacc|].
  apply NoDup_app; [exact Hacc | repeat constructor; auto |].
  intros a Ha [<-|[]]. contradiction.
Qed.

Lemma keyUpper_in_alphabet key ch :
  In ch (onlyAZ (replaceJ (toUpperCase key))) -> In ch alphabet.
Proof.
  intros Hin. apply filter_In in Hin as [Hin Hu].
  apply upper_in_alphabet; [exact Hu|]. intros ->.
  unfold replaceJ in Hin. apply in_map_iff in Hin as [x [Hx _]].
  destruct (ascii_dec x "J"%char); [discriminate Hx | congruence].
Qed.

(** The grid holds each letter of the alphabet exactly once. *)
Lemma playfairLetters_spec key :
  NoDup (playfairLetters key) /\ List.length (playfairLetters key) = 25%nat /\
  (forall ch, In ch (playfairLetters key) <-> In ch alphabet).
Proof.
  assert (Hin : forall ch, In ch (playfairLetters key) <-> In ch alphabet).
  { intros ch. unfold playfairLetters. rewrite !pushUnseen_In. cbn.
    split; [|tauto]. intros [[[]|H]|H]; [|exact H].
    eapply keyUpper_in_alphabet; exact H. }
  assert (Hnd : NoDup (playfairLetters key)).
  { apply pushUnseen_NoDup, pushUnseen_NoDup. constructor. }
  split; [exact Hnd|]. split; [|exact Hin].
  apply Nat.le_antisymm.
  - change 25%nat with (List.length alphabet).
    apply NoDup_incl_length; [exact Hnd|]. intros a. exact (proj1 (Hin a)).
  - change 25%nat with (List.length alphabet).
    apply NoDup_incl_length; [exact alphabet_NoDup|]. intros a. exact (proj2 (Hin a)).
Qed.

(** ** Positions in the grid *)

(** [findPosition] on a grid of 25 cells, read row-major. *)
Fixpoint flatFind (g : text) (o : option ascii) (k : Z) : option (Z * Z) :=
  match g with
  | [] => None
  | x :: g' => if opt_ascii_eqb (Some x) o then Some (k / 5, k mod 5) else flatFind g' o (k + 1)
  end.

Lemma findPosition_flat g o :
  List.length g = 25%nat -> findPosition (toGrid g) o = flatFind g o 0.
Proof.
  intros H. do 25 (destruct g as [|? g]; [discriminate|]).
  destruct g; [|discriminate]. clear H. cbv -[opt_ascii_eqb].
  repeat (match goal with
          | |- context [opt_ascii_eqb (Some ?a) o] => destruct (opt_ascii_eqb (Some a) o)
          end; [reflexivity|]).
  reflexivity.
Qed.

Lemma opt_ascii_eqb_some a b : opt_ascii_eqb (Some a) (Some b) = true <-> a = b.
Proof. cbn. destruct (ascii_dec a b); split; congruence. Qed.

Lemma flatFind_found g ch k s :
  NoDup g -> nth_error g k = Some ch ->
  flatFind g (Some ch) s = Some ((s + Z.of_nat k) / 5, (s + Z.of_nat k) mod 5).
Proof.
  revert k s. induction g as [|x g IH]; intros k s Hnd Hk; [destruct k; discriminate|].
  inversion Hnd as [|? ? Hx Hnd']; subst. cbn [flatFind].
  destruct k as [|k]; cbn in Hk.
  - injection Hk as ->. rewrite (proj2 (opt_ascii_eqb_some ch ch) eq_refl).
    rewrite Z.add_0_r. reflexivity.
  - destruct (opt_ascii_eqb (Some x) (Some ch)) eqn:E.
    + apply opt_ascii_eqb_some in E. subst. exfalso. apply Hx. eapply nth_error_In; eauto.
    + rewrite (IH k (s + 1) Hnd' Hk).
      replace (s + Z.of_nat (S k)) with (s + 1 + Z.of_nat k) by lia. reflexivity.
Qed.

Lemma flatFind_absent g ch s : ~ In ch g -> flatFind g (Some ch) s = None.
Proof.
  revert s. induction g as [|x g IH]; intros s Hin; [reflexivity|]. cbn [flatFind].
  destruct (opt_ascii_eqb (Some x) (Some ch)) eqn:E.
  - apply opt_ascii_eqb_some in E. subst. exfalso. apply Hin. left. reflexivity.
  - apply IH. intros H. apply Hin. right. exact H.
Qed.

Lemma flatFind_undefined g s : flatFind g None s = None.
Proof. revert s. induction g as [|x g IH]; intros s; [reflexivity|]. apply IH. Qed.

Lemma gget_toGrid g r c :
  0 <= r < 5 -> 0 <= c < 5 -> gget (toGrid g) r c = nth_error g (Z.to_nat (5 * r + c)).
Proof.
  intros Hr Hc. unfold gget.
  destruct (Z.ltb_spec r 0); destruct (Z.ltb_spec c 0); try lia. cbn [orb].
  unfold toGrid. rewrite nth_error_map, nth_error_seq.
  destruct (Nat.ltb_spec (Z.to_nat r) 5); [|lia]. cbn [option_map].
  unfold slice. rewrite nth_error_firstn.
  destruct (Nat.ltb_spec (Z.to_nat c) ((0 + Z.to_nat r + 1) * 5 - (0 + Z.to_nat r) * 5)%nat); [|lia].
  rewrite nth_error_skipn. f_equal. lia.
Qed.

(** The letter in cell [i] of the grid read row-major. *)
Definition at_ (g : text) (i : Z) : ascii := nth (Z.to_nat i) g "A"%char.

Lemma nth_error_at g i :
  List.length g = 25%nat -> 0 <= i < 25 -> nth_error g (Z.to_nat i) = Some (at_ g i).
Proof. intros Hl Hi. apply nth_error_nth'. lia. Qed.

Lemma cell_toGrid g r c :
  List.length g = 25%nat -> 0 <= r < 5 -> 0 <= c < 5 -> cell (toGrid g) r c = [at_ g (5 * r + c)].
Proof.
  intros Hl Hr Hc. unfold cell. rewrite gget_toGrid by assumption.
  rewrite nth_error_at by (assumption || lia). reflexivity.
Qed.

Lemma findPosition_at g i :
  List.length g = 25%nat -> NoDup g -> 0 <= i < 25 ->
  findPosition (toGrid g) (Some (at_ g i)) = Some (i / 5, i mod 5).
Proof.
  intros Hl Hnd Hi. rewrite findPosition_flat by exact Hl.
  rewrite (flatFind_found g (at_ g i) (Z.to_nat i) 0 Hnd) by (apply nth_error_at; assumption).
  rewrite Z2Nat.id by lia. reflexivity.
Qed.

(** ** Playfair rules on cell indices *)

Definition encIdx (p q : Z) : Z * Z :=
  let r1 := p / 5 in let c1 := p mod 5 in
  let r2 := q / 5 in let c2 := q mod 5 in
  if r1 =? r2 then (5 * r1 + Z.rem (c1 + 1) 5, 5 * r2 + Z.rem (c2 + 1) 5)
  else if c1 =? c2 then (5 * Z.rem (r1 + 1) 5 + c1, 5 * Z.rem (r2 + 1) 5 + c2)
  else (5 * r1 + c2, 5 * r2 + c1).

Definition decIdx (p q : Z) : Z * Z :=
  let r1 := p / 5 in let c1 := p mod 5 in
  let r2 := q / 5 in let c2 := q mod 5 in
  if r1 =? r2 then (5 * r1 + mod_ (c1 - 1) 5, 5 * r2 + mod_ (c2 - 1) 5)
  else if c1 =? c2 then (5 * mod_ (r1 - 1) 5 + c1, 5 * mod_ (r2 - 1) 5 + c2)
  else (5 * r1 + c2, 5 * r2 + c1).

Definition idx_ok (p q : Z) : bool :=
  let '(e1, e2) := encIdx p q in
  (0 <=? e1) && (e1 <? 25) && (0 <=? e2) && (e2 <? 25) &&
  (let '(d1, d2) := decIdx e1 e2 in (d1 =? p) && (d2 =? q)).

(** All 625 pairs of cells: the decryption rule undoes the encryption rule. *)
Lemma idx_all_ok :
  forallb (fun p => forallb (fun q => idx_ok p q) (zrange 25)) (zrange 25) = true.
Proof. vm_compute. reflexivity. Qed.

Lemma idx_ok_spec p q :
  0 <= p < 25 -> 0 <= q < 25 ->
  0 <= fst (encIdx p q) < 25 /\ 0 <= snd (encIdx p q) < 25 /\
  decIdx (fst (encIdx p q)) (snd (encIdx p q)) = (p, q).
Proof.
  intros Hp Hq. pose proof idx_all_ok as H. rewrite forallb_forall in H.
  specialize (H p (zrange_in 25 p ltac:(lia))). rewrite forallb_forall in H.
  specialize (H q (zrange_in 25 q ltac:(lia))). unfold idx_ok in H.
  destruct (encIdx p q) as [e1 e2]. destruct (decIdx e1 e2) as [d1 d2] eqn:Ed.
  repeat rewrite andb_true_iff in H.
  destruct H as [[[[H1 H2] H3] H4] [H5 H6]].
  apply Z.leb_le in H1. apply Z.ltb_lt in H2. apply Z.leb_le in H3. apply Z.ltb_lt in H4.
  apply Z.eqb_eq in H5. apply Z.eqb_eq in H6. cbn [fst snd]. rewrite Ed. subst.
  repeat split; lia.
Qed.

Lemma encDigram_at g p q :
  List.length g = 25%nat -> NoDup g -> 0 <= p < 25 -> 0 <= q < 25 ->
  encDigram (toGrid g) (Some (at_ g p)) (Some (at_ g q)) =
  Some [at_ g (fst (encIdx p q)); at_ g (snd (encIdx p q))].
Proof.
  intros Hl Hnd Hp Hq. unfold encDigram.
  rewrite !findPosition_at by assumption.
  unfold encIdx. cbv zeta.
  destruct (p / 5 =? q / 5); [|destruct (p mod 5 =? q mod 5)]; cbn [fst snd];
    rewrite !cell_toGrid by (assumption || zlia); reflexivity.
Qed.

Lemma decDigram_at g p q :
  List.length g = 25%nat -> NoDup g -> 0 <= p < 25 -> 0 <= q < 25 ->
  decDigram (toGrid g) (Some (at_ g p)) (Some (at_ g q)) =
  Some [at_ g (fst (decIdx p q)); at_ g (snd (decIdx p q))].
Proof.
  intros Hl Hnd Hp Hq. unfold decDigram.
  rewrite !findPosition_at by assumption.
  unfold decIdx. cbv zeta. rewrite !mod5.
  destruct (p / 5 =? q / 5); [|destruct (p mod 5 =? q mod 5)]; cbn [fst snd];
    rewrite !cell_toGrid by (assumption || zlia); reflexivity.
Qed.

Lemma in_at g x :
  List.length g = 25%nat -> In x g -> exists p, 0 <= p < 25 /\ x = at_ g p.
Proof.
  intros Hl Hin. apply In_nth_error in Hin as [k Hk].
  assert (Hk' : (k < 25)%nat) by (rewrite <- Hl; apply nth_error_Some; congruence).
  exists (Z.of_nat k). split; [lia|].
  pose proof (nth_error_at g (Z.of_nat k) Hl ltac:(lia)) as H.
  rewrite Nat2Z.id in H. congruence.
Qed.

Lemma at_in g p : List.length g = 25%nat -> 0 <= p < 25 -> In (at_ g p) g.
Proof. intros Hl Hp. apply nth_error_In with (Z.to_nat p). apply nth_error_at; assumption. Qed.

(** One digram: its two encrypted letters are in the grid and decrypt back. *)
Lemma digram_roundtrip g x y :
  List.length g = 25%nat -> NoDup g -> In x g -> In y g ->
  exists x' y', In x' g /\ In y' g /\
    encDigram (toGrid g) (Some x) (Some y) = Some [x'; y'] /\
    decDigram (toGrid g) (Some x') (Some y') = Some [x; y].
Proof.
  intros Hl Hnd Hx Hy.
  destruct (in_at g x Hl Hx) as [p [Hp ->]]. destruct (in_at g y Hl Hy) as [q [Hq ->]].
  destruct (idx_ok_spec p q Hp Hq) as [H1 [H2 H3]].
  exists (at_ g (fst (encIdx p q))), (at_ g (snd (encIdx p q))).
  split; [apply at_in; assumption|]. split; [apply at_in; assumption|].
  split; [apply encDigram_at; assumption|].
  rewrite decDigram_at by assumption. rewrite H3. reflexivity.
Qed.

(** The letters of a list of digrams, in order. *)
Definition flat (ds : list (ascii * ascii)) : text :=
  flat_map (fun d => [fst d; snd d]) ds.

Lemma encLoop_roundtrip g ds :
  List.length g = 25%nat -> NoDup g ->
  Forall (fun d => In (fst d) g /\ In (snd d) g) ds ->
  exists C, encLoop (toGrid g) ds = Some C /\ Forall (fun ch => In ch g) C /\
    decLoop (toGrid g) C = Some (flat ds).
Proof.
  intros Hl Hnd. induction 1 as [|[x y] ds [Hx Hy] _ IH]; [exists []; auto|].
  destruct IH as [C [HC [Hin Hdec]]]. cbn [fst snd] in Hx, Hy.
  destruct (digram_roundtrip g x y Hl Hnd Hx Hy) as [x' [y' [Hx' [Hy' [He Hd]]]]].
  exists (x' :: y' :: C). cbn [encLoop]. rewrite He, HC.
  split; [reflexivity|]. split; [constructor; [|constructor]; assumption|].
  cbn [decLoop]. rewrite Hd, Hdec. reflexivity.
Qed.

(** The cleaned text is cut into digrams whose letters all lie in a set
    that holds every letter of the text and the filler [X]. *)
Lemma digrams_in (P : ascii -> Prop) c :
  P "X"%char -> Forall P c -> Forall (fun d => P (fst d) /\ P (snd d)) (digrams c).
Proof.
  intros HX. cut (forall n c, (List.length c <= n)%nat -> Forall P c ->
                  Forall (fun d => P (fst d) /\ P (snd d)) (digrams c)).
  { intros H. apply (H (List.length c)). lia. }
  clear c. induction n as [|n IH]; intros c Hn Hc.
  - destruct c; [constructor|cbn in Hn; lia].
  - destruct c as [|a [|b r]]; cbn [digrams].
    + constructor.
    + inversion Hc; subst. repeat constructor; assumption.
    + inversion Hc as [|? ? Ha Hc']; subst. inversion Hc' as [|? ? Hb Hr]; subst.
      cbn [List.length] in Hn.
      destruct (ascii_dec a b).
      * constructor; [split; assumption|]. apply (IH (b :: r)); [cbn [List.length]; lia|assumption].
      * constructor; [split; assumption|]. apply IH; [lia|assumption].
Qed.

(** A text is ready for Playfair when it has even length and the two
    letters of each pair differ: no filler is then inserted. *)
Fixpoint digram_ready (t : text) : bool :=
  match t with
  | [] => true
  | [_] => false
  | a :: b :: r => negb (Ascii.eqb a b) && digram_ready r
  end.

Lemma digrams_ready t : digram_ready t = true -> flat (digrams t) = t.
Proof.
  cut (forall n t, (List.length t <= n)%nat -> digram_ready t = true -> flat (digrams t) = t).
  { intros H. apply (H (List.length t)). lia. }
  clear t. induction n as [|n IH]; intros t Hn Ht.
  - destruct t; [reflexivity|cbn in Hn; lia].
  - destruct t as [|a [|b r]]; [reflexivity|discriminate|].
    cbn [digram_ready] in Ht. apply andb_true_iff in Ht as [Hab Hr].
    cbn [digrams]. destruct (ascii_dec a b) as [E|E].
    + subst. rewrite Ascii.eqb_refl in Hab. discriminate.
    + cbn [flat flat_map fst snd]. fold (flat (digrams r)).
      rewrite IH by (cbn in Hn; lia || assumption). reflexivity.
Qed.

Lemma replaceJ_noJ t : ~ In "J"%char t -> replaceJ t = t.
Proof.
  induction t as [|ch t IH]; intros Hn; [reflexivity|].
  cbn [replaceJ map]. fold (replaceJ t).
  destruct (ascii_dec ch "J"%char) as [E|E].
  - subst. exfalso. apply Hn. left. reflexivity.
  - rewrite IH; [reflexivity|]. intros H. apply Hn. right. exact H.
Qed.

Lemma X_in_alphabet : In "X"%char alphabet.
Proof. apply upper_in_alphabet; [reflexivity|discriminate]. Qed.

(** Encryption never fails; its output is made of uppercase letters of
    the grid, and decryption returns the digrams that encryption built. *)
Lemma playfair_general T key :
  exists C, playfairEncrypt T key = Some C /\ all_upper C /\
    playfairDecrypt C key = Some (flat (preparePlayfairText T)).
Proof.
  destruct (playfairLetters_spec key) as [Hnd [Hl Hin]].
  set (g := playfairLetters key) in *.
  assert (Hd : Forall (fun d => In (fst d) g /\ In (snd d) g) (preparePlayfairText T)).
  { apply (digrams_in (fun ch => In ch g)).
    - exact (proj2 (Hin "X"%char) X_in_alphabet).
    - apply Forall_forall. intros ch Hch.
      exact (proj2 (Hin ch) (keyUpper_in_alphabet T ch Hch)). }
  destruct (encLoop_roundtrip g _ Hl Hnd Hd) as [C [HC [HCin Hdec]]].
  assert (Hu : all_upper C).
  { unfold all_upper. rewrite Forall_forall in *. intros ch Hch.
    exact (proj1 (alphabet_upper ch (proj1 (Hin ch) (HCin ch Hch)))). }
  exists C. unfold playfairEncrypt, playfairDecrypt, buildPlayfairMatrix. fold g.
  rewrite HC. split; [reflexivity|]. split; [exact Hu|].
  rewrite toUpperCase_upper, onlyAZ_upper by exact Hu. exact Hdec.
Qed.




(** ** Exhaustive searches *)

Definition affineKey (r : Z * Z * text) : Z * Z := let '(a, b, _) := r in (a, b).

Lemma validA_invertible : Forall (fun a => exists x, modInverse a 26 = Some x) validA.
Proof. repeat constructor; eexists; reflexivity. Qed.

Lemma bruteForceAffine_inner c a l :
  (exists x, modInverse a 26 = Some x) ->
  map affineKey (flat_map (fun b =>
      match affineDecrypt c a b with
      | Some t => [(a, b, t)]
      | None => []
      end) l) = map (fun b => (a, b)) l.
Proof.
  intros [x Hx]. unfold affineDecrypt. rewrite Hx.
  induction l as [|b l IH]; [reflexivity|]. cbn [flat_map map app]. rewrite IH. reflexivity.
Qed.

Lemma bruteForceAffine_keys c :
  map affineKey (bruteForceAffine c) = list_prod validA (zrange 26).
Proof.
  unfold bruteForceAffine. induction validA_invertible as [|a la Ha _ IH]; [reflexivity|].
  cbn [flat_map list_prod]. rewrite map_app, IH, bruteForceAffine_inner by exact Ha.
  reflexivity.
Qed.

Definition keyltb (p q : Z * Z) : bool :=
  (fst p <? fst q) || ((fst p =? fst q) && (snd p <? snd q)).

Fixpoint ascendingb {A} (ltb : A -> A -> bool) (l : list A) : bool :=
  match l with
  | x :: (y :: _) as r => ltb x y && ascendingb ltb r
  | _ => true
  end.

Lemma ascendingb_Sorted {A} (ltb : A -> A -> bool) l :
  ascendingb ltb l = true -> Sorted (fun x y => ltb x y = true) l.
Proof.
  induction l as [|x l IH]; intros H; [constructor|].
  destruct l as [|y l]; [repeat constructor|].
  apply andb_true_iff in H as [H1 H2].
  constructor; [apply IH, H2 | constructor; exact H1].
Qed.

(** ** The dictionary scan *)

Definition wordMatches (ciphertext : text) (cipher : string) (p : params) (w : text) : bool :=
  match encryptWord cipher p w with
  | Some e => text_eqb (toLowerCase e) (toLowerCase ciphertext)
  | None => false
  end.

Lemma dictionaryDirectAttack_filter ciphertext words cipher p :
  dictionaryDirectAttack ciphertext words cipher p = filter (wordMatches ciphertext cipher p) words.
Proof.
  induction words as [|w ws IH]; [reflexivity|]. cbn [dictionaryDirectAttack filter].
  unfold wordMatches at 1. destruct (encryptWord cipher p w) as [e|]; [|exact IH].
  destruct (text_eqb _ _); rewrite IH; reflexivity.
Qed.

Lemma existsb_not_In ch t : existsb (Ascii.eqb ch) t = false -> ~ In ch t.
Proof.
  intros H Hin. assert (E : existsb (Ascii.eqb ch) t = true).
  { apply existsb_exists. exists ch. split; [exact Hin | apply Ascii.eqb_refl]. }
  congruence.
Qed.

(** * The claims *)




Lemma affine_roundtrip_witness :
  exists C, affineEncrypt (str "Hello, World") 5 8 = Some C /\
            affineDecrypt C 5 8 = Some (str "Hello, World").
Proof. apply affine_roundtrip; [lia | reflexivity]. Defined.



(** C4 (amended): for every key and every text [T], encryption succeeds and
    decryption returns the digram text built by [preparePlayfairText]:
    [T] uppercased, [J] turned into [I], non-letters removed, an [X] after
    the first letter of a pair of equal letters and an [X] at an odd end.
    When that cleaned text has even length and distinct letters in each
    pair, decryption returns the cleaned text; so an uppercase text without
    [J] of that shape comes back unchanged. *)
Theorem playfair_roundtrip (T key : text) :
  (exists C, playfairEncrypt T key = Some C /\
             playfairDecrypt C key = Some (flat (preparePlayfairText T))) /\
  (digram_ready (onlyAZ (replaceJ (toUpperCase T))) = true ->
   exists C, playfairEncrypt T key = Some C /\
             playfairDecrypt C key = Some (onlyAZ (replaceJ (toUpperCase T)))) /\
  (all_upper T -> ~ In "J"%char T -> digram_ready T = true ->
   exists C, playfairEncrypt T key = Some C /\ playfairDecrypt C key = Some T).
Proof.
  destruct (playfair_general T key) as [C [HC [_ Hd]]].
  split; [exists C; split; assumption|]. split.
  - intros Hr. exists C. split; [exact HC|]. rewrite Hd.
    unfold preparePlayfairText. rewrite digrams_ready by exact Hr. reflexivity.
  - intros Hu HJ Hr. exists C. split; [exact HC|]. rewrite Hd.
    unfold preparePlayfairText.
    rewrite toUpperCase_upper, replaceJ_noJ, onlyAZ_upper, digrams_ready by assumption.
    reflexivity.
Qed.

Lemma playfair_roundtrip_witness :
  exists C, playfairEncrypt (str "HELO") (str "SECRET") = Some C /\
            playfairDecrypt C (str "SECRET") = Some (str "HELO").
Proof.
  destruct (playfair_roundtrip (str "HELO") (str "SECRET")) as [_ [_ H]].
  apply H; [repeat constructor | apply existsb_not_In; reflexivity | reflexivity].
Defined.

(** C4 fails as stated: ["IJ"] has no repeated letter and even length but
    comes back as ["IXIX"]; the lowercase ["hi"] comes back as ["HI"]. *)
Lemma playfair_roundtrip_IJ :
  (exists C, playfairEncrypt (str "IJ") (str "SECRET") = Some C /\
             playfairDecrypt C (str "SECRET") = Some (str "IXIX")) /\
  (exists C, playfairEncrypt (str "hi") (str "SECRET") = Some C /\
             playfairDecrypt C (str "SECRET") = Some (str "HI")).
Proof.
  split; eexists; (split; [vm_compute; reflexivity | vm_compute; reflexivity]).
Qed.


Lemma affineEncrypt_fails_iff_witness :
  affineEncrypt (str "HELLO") 2 8 = None <-> Z.gcd 2 26 <> 1.
Proof. apply affineEncrypt_fails_iff. lia. Defined.

(** C6 fails as stated: [a = 27] lies outside the twelve values yet
    encryption succeeds; [a = -1] is coprime to 26 yet encryption fails,
    the Euclid loop on [%] returning [-1]. *)
Lemma affineEncrypt_a27_neg1 :
  ~ In 27 validA /\ affineEncrypt (str "HELLO") 27 8 <> None /\
  Z.gcd (-1) 26 = 1 /\ affineEncrypt (str "HELLO") (-1) 8 = None.
Proof.
  split; [cbn; lia|]. split; [vm_compute; discriminate|].
  split; reflexivity.
Qed.

(** C7: [bruteForceCaesar] returns 26 entries with shifts 0 to 25 in
    ascending order and [bruteForceAffine] 312 entries, keys [(a, b)] in
    ascending lexicographic order over the twelve values of [a] and
    [b] = 0..25, for every ciphertext; the named entries are found. *)
Theorem bruteForce_enumeration (c : text) :
  map fst (bruteForceCaesar c) = zrange 26 /\
  List.length (bruteForceCaesar c) = 26%nat /\
  Sorted (fun x y => (x <? y) = true) (map fst (bruteForceCaesar c)) /\
  map affineKey (bruteForceAffine c) = list_prod validA (zrange 26) /\
  List.length (bruteForceAffine c) = 312%nat /\
  Sorted (fun x y => keyltb x y = true) (map affineKey (bruteForceAffine c)) /\
  In (3, str "HELLO") (bruteForceCaesar (str "KHOOR")) /\
  In (5, 8, str "HELLO") (bruteForceAffine (str "RCLLA")).
Proof.
  assert (Hc : map fst (bruteForceCaesar c) = zrange 26).
  { unfold bruteForceCaesar. rewrite map_map. apply map_id. }
  split; [exact Hc|]. split; [unfold bruteForceCaesar; rewrite length_map; reflexivity|].
  split; [rewrite Hc; apply ascendingb_Sorted; vm_compute; reflexivity|].
  split; [apply bruteForceAffine_keys|].
  split; [rewrite <- (length_map affineKey), bruteForceAffine_keys; reflexivity|].
  split; [rewrite bruteForceAffine_keys; apply ascendingb_Sorted; vm_compute; reflexivity|].
  split.
  - apply in_map_iff. exists 3. split; [reflexivity | apply zrange_in; lia].
  - unfold bruteForceAffine. apply in_flat_map. exists 5. split; [cbn; tauto|].
    apply in_flat_map. exists 8. split; [apply zrange_in; lia|].
    rewrite affine_back. left. reflexivity.
Qed.

(** C8 is not met by the code: encryption never fails, but decryption
    throws on a text of odd length (["ABC"]) or holding a letter absent
    from the grid (["JA"]): [findPosition] returns [null], which the
    destructuring [const [row, col]] rejects. *)
Theorem playfair_failures :
  (forall T key, exists C, playfairEncrypt T key = Some C) /\
  playfairDecrypt (str "ABC") (str "SECRET") = None /\
  playfairDecrypt (str "JA") (str "SECRET") = None.
Proof.
  split; [|split; vm_compute; reflexivity].
  intros T key. destruct (playfair_general T key) as [C [HC _]]. exists C. exact HC.
Qed.

(** C9: on the word list ["hello"; "world"], the [caesar] cipher with
    shift 3 and ciphertext ["khoor"], the scan returns exactly ["hello"];
    on every word list it keeps, in order, the words whose encryption
    matches the ciphertext, a word whose encryption throws being skipped
    and the scan going on with the next word. *)
Theorem dictionaryDirectAttack_spec :
  dictionaryDirectAttack (str "khoor") [str "hello"; str "world"] "caesar"%string
    (Params (Some 3) None None None None) = [str "hello"] /\
  (forall ciphertext words cipher p,
     dictionaryDirectAttack ciphertext words cipher p =
     filter (wordMatches ciphertext cipher p) words) /\
  (forall ciphertext w words cipher p,
     encryptWord cipher p w = None ->
     dictionaryDirectAttack ciphertext (w :: words) cipher p =
     dictionaryDirectAttack ciphertext words cipher p).
Proof.
  split; [vm_compute; reflexivity|]. split; [apply dictionaryDirectAttack_filter|].
  intros ciphertext w words cipher p Hw. cbn [dictionaryDirectAttack]. rewrite Hw. reflexivity.
Qed.

(** * Further properties of the code *)

(** ** Euclid's loop *)

Lemma gcd_loop_abs fuel a b :
  (Z.to_nat (Z.abs b) < fuel)%nat -> Z.abs (gcd_loop fuel a b) = Z.gcd a b.
Proof.
  revert a b. induction fuel as [|f IH]; intros a b Hf; [lia|].
  rewrite gcd_loop_S. destruct (Z.eqb_spec b 0) as [->|Hb].
  - rewrite Z.gcd_0_r. reflexivity.
  - pose proof (Z.rem_bound_abs a b Hb) as Hr.
    rewrite IH by lia. rewrite Z.gcd_comm, Z.gcd_rem by exact Hb. apply Z.gcd_comm.
Qed.

Lemma gcd_loop_nonneg fuel a b : 0 <= a -> 0 <= b -> 0 <= gcd_loop fuel a b.
Proof.
  revert a b. induction fuel as [|f IH]; intros a b Ha Hb; [exact Ha|].
  rewrite gcd_loop_S. destruct (Z.eqb_spec b 0); [exact Ha|].
  apply IH; [exact Hb | apply Z.rem_nonneg; lia].
Qed.

(** ** The inverse search *)

Lemma modInverse_loop_some fuel a m x0 r :
  modInverse_loop fuel a m x0 = Some r ->
  x0 <= r < x0 + Z.of_nat fuel /\ Z.rem (a * r) m = 1 /\
  (forall y, x0 <= y < r -> Z.rem (a * y) m <> 1).
Proof.
  revert x0. induction fuel as [|f IH]; intros x0 H; [discriminate|].
  cbn [modInverse_loop] in H. destruct (Z.eqb_spec (Z.rem (a * x0) m) 1) as [E|E].
  - injection H as <-. split; [lia|]. split; [exact E|]. intros y Hy. lia.
  - destruct (IH (x0 + 1) H) as [H1 [H2 H3]]. split; [lia|]. split; [exact H2|].
    intros y Hy. destruct (Z.eq_dec y x0) as [->|Hne]; [exact E|]. apply H3. lia.
Qed.

Lemma modInverse_loop_none fuel a m x0 :
  modInverse_loop fuel a m x0 = None ->
  forall y, x0 <= y < x0 + Z.of_nat fuel -> Z.rem (a * y) m <> 1.
Proof.
  revert x0. induction fuel as [|f IH]; intros x0 H y Hy; [lia|].
  cbn [modInverse_loop] in H. destruct (Z.eqb_spec (Z.rem (a * x0) m) 1) as [E|E];
    [discriminate|].
  destruct (Z.eq_dec y x0) as [->|Hne]; [exact E|]. apply (IH (x0 + 1) H). lia.
Qed.

Lemma rem_normalised a m y :
  0 < m -> 0 <= y -> Z.rem (Z.rem (Z.rem a m + m) m * y) m = (a * y) mod m.
Proof.
  intros Hm Hy. change (Z.rem (Z.rem a m + m) m) with (mod_ a m). rewrite mod_spec by exact Hm.
  rewrite Z.rem_mod_nonneg.
  - apply Z.mul_mod_idemp_l. lia.
  - apply Z.mul_nonneg_nonneg; [apply Z.mod_pos_bound|]; lia.
  - exact Hm.
Qed.

Lemma inverse_gcd a m x : 0 < m -> (a * x) mod m = 1 -> Z.gcd a m = 1.
Proof.
  intros Hm H. apply Z.divide_1_r_nonneg; [apply Z.gcd_nonneg|].
  rewrite <- H. rewrite Z.mod_eq by lia.
  apply Z.divide_sub_r.
  - apply Z.divide_mul_l, Z.gcd_divide_l.
  - apply Z.divide_mul_l, Z.gcd_divide_r.
Qed.

Lemma gcd_inverse a m :
  1 < m -> Z.gcd a m = 1 -> exists y, 1 <= y < m /\ (a * y) mod m = 1.
Proof.
  intros Hm Hg. destruct (proj1 (Z.Bezout_coprime_iff a m) Hg) as [u [v Huv]].
  exists (u mod m).
  assert (Hy : (a * (u mod m)) mod m = 1).
  { rewrite Z.mul_mod_idemp_r by lia.
    replace (a * u) with (1 + (- v) * m) by lia.
    rewrite Z.mod_add by lia. apply Z.mod_small. lia. }
  split; [|exact Hy].
  pose proof (Z.mod_pos_bound u m ltac:(lia)).
  destruct (Z.eq_dec (u mod m) 0) as [E|E]; [|lia].
  rewrite E, Z.mul_0_r, Z.mod_0_l in Hy by lia. discriminate.
Qed.

Lemma modInverse_some a m x :
  1 < m ->
  (modInverse a m = Some x <->
   1 <= x < m /\ (a * x) mod m = 1 /\ (forall y, 1 <= y < x -> (a * y) mod m <> 1)).
Proof.
  intros Hm. unfold modInverse.
  set (a' := Z.rem (Z.rem a m + m) m).
  assert (Hn : forall y, 0 <= y -> Z.rem (a' * y) m = (a * y) mod m)
    by (intros y Hy; apply rem_normalised; lia).
  split.
  - intros H. destruct (modInverse_loop_some _ _ _ _ _ H) as [H1 [H2 H3]].
    rewrite Z2Nat.id in H1 by lia.
    split; [lia|]. split; [rewrite <- Hn by lia; exact H2|].
    intros y Hy. rewrite <- Hn by lia. apply H3. lia.
  - intros [H1 [H2 H3]].
    destruct (modInverse_loop (Z.to_nat (m - 1)) a' m 1) as [r|] eqn:E.
    + destruct (modInverse_loop_some _ _ _ _ _ E) as [R1 [R2 R3]].
      rewrite Z2Nat.id in R1 by lia. rewrite Hn in R2 by lia. f_equal.
      destruct (Z.lt_total r x) as [Hlt|[Heq|Hgt]].
      * exfalso. apply (H3 r); [lia | exact R2].
      * exact Heq.
      * exfalso. apply (R3 x); [lia|]. rewrite Hn by lia. exact H2.
    + exfalso. apply (modInverse_loop_none _ _ _ _ E x); [rewrite Z2Nat.id by lia; lia|].
      rewrite Hn by lia. exact H2.
Qed.

Lemma modInverse_none a m : 1 < m -> (modInverse a m = None <-> Z.gcd a m <> 1).
Proof.
  intros Hm. split.
  - intros H Hg. destruct (gcd_inverse a m Hm Hg) as [y [Hy1 Hy2]].
    unfold modInverse in H.
    apply (modInverse_loop_none _ _ _ _ H y); [rewrite Z2Nat.id by lia; lia|].
    rewrite rem_normalised by lia. exact Hy2.
  - intros Hg. destruct (modInverse a m) as [x|] eqn:E; [|reflexivity].
    exfalso. apply Hg. apply (proj1 (modInverse_some a m x Hm)) in E as [_ [E _]].
    apply (inverse_gcd a m x); [lia | exact E].
Qed.

(** ** Composition of César shifts *)

Lemma caesar_compose T s1 s2 :
  caesarEncrypt (caesarEncrypt T s1) s2 = caesarEncrypt T (s1 + s2).
Proof.
  unfold caesarEncrypt. rewrite map_map. apply map_ext. intros ch. char_split ch.
  all: try reflexivity. all: try (apply fromCharCode_eq; zlia).
  all: f_equal; f_equal; rewrite Z.add_simpl_r, Zplus_mod_idemp_l; f_equal; ring.
Qed.

Lemma caesar_shift0 T : caesarEncrypt T 0 = T.
Proof.
  unfold caesarEncrypt. transitivity (map (fun ch => ch) T); [|apply map_id].
  apply map_ext. intros ch. solve_char ch.
Qed.

(** The arithmetic of one Affine letter, decryption first. *)
Lemma affine_enc_step a b x n :
  (a * x) mod 26 = 1 -> 0 <= n < 26 ->
  (a * ((x * (n - b)) mod 26) + b) mod 26 = n.
Proof.
  intros H Hn.
  rewrite <- Zplus_mod_idemp_l, Z.mul_mod_idemp_r by lia.
  replace (a * (x * (n - b))) with ((a * x) * (n - b)) by ring.
  rewrite <- Z.mul_mod_idemp_l, H, Z.mul_1_l by lia.
  rewrite Zplus_mod_idemp_l. replace (n - b + b) with n by ring.
  apply Z.mod_small. exact Hn.
Qed.

Lemma affine_dec_enc T a b x :
  0 < a -> (a * x) mod 26 = 1 -> modInverse a 26 = Some x ->
  exists P, affineDecrypt T a b = Some P /\ affineEncrypt P a b = Some T.
Proof.
  intros Ha Hax Hx. unfold affineDecrypt. rewrite Hx. eexists. split; [reflexivity|].
  unfold affineEncrypt. rewrite gcd_26_nonneg by lia.
  rewrite (inverse_gcd a 26 x) by (lia || exact Hax). cbn [Z.eqb Pos.eqb negb].
  f_equal. rewrite map_map.
  transitivity (map (fun ch => ch) T); [|apply map_id].
  apply map_ext. intros ch. char_split ch.
  all: try reflexivity.
  all: apply fromCharCode_eq; rewrite Z.add_simpl_r, affine_enc_step by (exact Hax || lia); lia.
Qed.

Lemma validA_coprime : Forall (fun a => 0 < a /\ Z.gcd a 26 = 1) validA.
Proof. repeat constructor. Qed.

(** * Extra properties *)

(** [gcd(a, b)] is the greatest common divisor up to its sign, and exactly
    it on non-negative arguments. *)
Theorem gcd_spec (a b : Z) :
  Z.abs (gcd a b) = Z.gcd a b /\ (0 <= a -> 0 <= b -> gcd a b = Z.gcd a b).
Proof.
  assert (H : Z.abs (gcd a b) = Z.gcd a b) by (apply gcd_loop_abs; lia).
  split; [exact H|]. intros Ha Hb. rewrite <- H.
  symmetry. apply Z.abs_eq, gcd_loop_nonneg; assumption.
Qed.







(** Every candidate of [bruteForceCaesar(c)] encrypts back to [c] under its
    shift, and every candidate [(a, b, text)] of [bruteForceAffine(c)]
    encrypts back to [c] under its key. *)
Theorem bruteForce_candidates_sound (c : text) :
  Forall (fun r => caesarEncrypt (snd r) (fst r) = c) (bruteForceCaesar c) /\
  Forall (fun r => let '(a, b, t) := r in affineEncrypt t a b = Some c) (bruteForceAffine c).
Proof.
  split.
  - unfold bruteForceCaesar. apply Forall_map, Forall_forall. intros s _. cbn [fst snd].
    unfold caesarDecrypt. rewrite caesar_compose. replace (- s + s) with 0 by ring.
    apply caesar_shift0.
  - apply Forall_forall. intros [[a b] t] Hr. unfold bruteForceAffine in Hr.
    apply in_flat_map in Hr as [a' [Ha' Hr]]. apply in_flat_map in Hr as [b' [_ Hr]].
    pose proof validA_coprime as Hv. rewrite Forall_forall in Hv.
    destruct (Hv a' Ha') as [Hpos Hg].
    destruct (affineDecrypt c a' b') as [t'|] eqn:E; [|destruct Hr].
    destruct Hr as [Hr|[]]. injection Hr as <- <- <-.
    destruct (modInverse a' 26) as [x|] eqn:Ex.
    + apply (proj1 (modInverse_some a' 26 x ltac:(lia))) in Ex as Ex'.
      destruct Ex' as [_ [Hax _]].
      destruct (affine_dec_enc c a' b' x Hpos Hax Ex) as [P [HP HE]].
      rewrite E in HP. injection HP as <-. exact HE.
    + exfalso. apply (proj1 (modInverse_none a' 26 ltac:(lia)) Ex). exact Hg.
Qed.

(** ** The Playfair grid, further *)

Lemma toGrid_shape g :
  List.length g = 25%nat ->
  concat (toGrid g) = g /\ List.length (toGrid g) = 5%nat /\
  Forall (fun row => List.length row = 5%nat) (toGrid g).
Proof.
  intros H. do 25 (destruct g as [|? g]; [discriminate|]).
  destruct g; [|discriminate]. split; [reflexivity|]. split; [reflexivity|].
  repeat constructor.
Qed.

Lemma pushUnseen_prefix acc l : exists r, pushUnseen acc l = acc ++ r.
Proof.
  revert acc. induction l as [|x l IH]; intros acc; cbn [pushUnseen].
  - exists []. symmetry. apply app_nil_r.
  - destruct (in_dec ascii_dec x acc); [apply IH|].
    destruct (IH (acc ++ [x])) as [r Hr]. exists (x :: r). rewrite Hr, <- app_assoc. reflexivity.
Qed.

Lemma pushUnseen_distinct acc l : NoDup (acc ++ l) -> pushUnseen acc l = acc ++ l.
Proof.
  revert acc. induction l as [|x l IH]; intros acc H; cbn [pushUnseen].
  - symmetry. apply app_nil_r.
  - destruct (in_dec ascii_dec x acc) as [Hx|Hx].
    + exfalso. apply (NoDup_remove_2 acc l x H). apply in_or_app. left. exact Hx.
    + rewrite IH; [rewrite <- app_assoc; reflexivity|]. rewrite <- app_assoc. exact H.
Qed.

Lemma grid_letter ch key :
  In ch (playfairLetters key) <-> is_upper ch = true /\ ch <> "J"%char.
Proof.
  destruct (playfairLetters_spec key) as [_ [_ Hin]]. rewrite Hin. split.
  - apply alphabet_upper.
  - intros [H1 H2]. apply upper_in_alphabet; assumption.
Qed.

Lemma at_inj g p q :
  List.length g = 25%nat -> NoDup g -> 0 <= p < 25 -> 0 <= q < 25 -> at_ g p = at_ g q -> p = q.
Proof.
  intros Hl Hnd Hp Hq E.
  assert (Hi : Z.to_nat p = Z.to_nat q).
  { apply (proj1 (NoDup_nth_error g) Hnd); [lia|].
    rewrite !nth_error_at by assumption. rewrite E. reflexivity. }
  lia.
Qed.

(** Playfair never maps a cell to itself, on any pair of cells. *)
Definition idx_moves (p q : Z) : bool :=
  negb (fst (encIdx p q) =? p) && negb (snd (encIdx p q) =? q).

Lemma idx_all_move :
  forallb (fun p => forallb (fun q => idx_moves p q) (zrange 25)) (zrange 25) = true.
Proof. vm_compute. reflexivity. Qed.

Lemma idx_moves_spec p q :
  0 <= p < 25 -> 0 <= q < 25 -> fst (encIdx p q) <> p /\ snd (encIdx p q) <> q.
Proof.
  intros Hp Hq. pose proof idx_all_move as H. rewrite forallb_forall in H.
  specialize (H p (zrange_in 25 p ltac:(lia))). rewrite forallb_forall in H.
  specialize (H q (zrange_in 25 q ltac:(lia))). unfold idx_moves in H.
  apply andb_true_iff in H as [H1 H2]. apply negb_true_iff, Z.eqb_neq in H1, H2.
  split; assumption.
Qed.

Lemma encLoop_moves g ds :
  List.length g = 25%nat -> NoDup g ->
  Forall (fun d => In (fst d) g /\ In (snd d) g) ds ->
  exists C, encLoop (toGrid g) ds = Some C /\ List.length C = (2 * List.length ds)%nat /\
    (forall i ch, nth_error (flat ds) i = Some ch -> nth_error C i <> Some ch).
Proof.
  intros Hl Hnd. induction 1 as [|[x y] ds [Hx Hy] _ IH].
  - exists []. split; [reflexivity|]. split; [reflexivity|]. intros [|i] ch H; discriminate.
  - destruct IH as [C [HC [Hlen Hne]]]. cbn [fst snd] in Hx, Hy.
    destruct (in_at g x Hl Hx) as [p [Hp ->]]. destruct (in_at g y Hl Hy) as [q [Hq ->]].
    destruct (idx_ok_spec p q Hp Hq) as [R1 [R2 _]].
    destruct (idx_moves_spec p q Hp Hq) as [M1 M2].
    exists (at_ g (fst (encIdx p q)) :: at_ g (snd (encIdx p q)) :: C).
    cbn [encLoop]. rewrite encDigram_at, HC by assumption.
    split; [reflexivity|]. split; [cbn [List.length]; lia|].
    intros [|[|i]] ch H; cbn in H |- *.
    + injection H as <-. intros E. injection E as E. apply M1.
      apply (at_inj g); assumption.
    + injection H as <-. intros E. injection E as E. apply M2.
      apply (at_inj g); assumption.
    + apply (Hne i ch H).
Qed.

(** Each digram of the prepared text holds two equal letters only as [XX]. *)
Lemma digrams_equal_X c : Forall (fun d => fst d = snd d -> fst d = "X"%char) (digrams c).
Proof.
  cut (forall n c, (List.length c <= n)%nat ->
       Forall (fun d => fst d = snd d -> fst d = "X"%char) (digrams c)).
  { intros H. apply (H (List.length c)). lia. }
  clear c. induction n as [|n IH]; intros c Hn.
  - destruct c; [constructor|cbn in Hn; lia].
  - destruct c as [|a [|b r]]; cbn [digrams].
    + constructor.
    + repeat constructor. cbn. intros E. exact E.
    + cbn [List.length] in Hn. destruct (ascii_dec a b) as [E|E].
      * constructor; [cbn; intros E'; exact E'|]. apply (IH (b :: r)). cbn [List.length]. lia.
      * constructor; [cbn; intros E'; contradiction|]. apply IH. lia.
Qed.

(** [buildPlayfairMatrix(key)] has 5 rows of 5 letters holding each letter
    [A]-[Z] but [J] exactly once; read row by row, it starts with the letters
    of the cleaned key (uppercased, [J] as [I], non-letters dropped), each
    once, and with the cleaned key itself when its letters are distinct. *)
Theorem buildPlayfairMatrix_spec (key : text) :
  let m := buildPlayfairMatrix key in
  let k := onlyAZ (replaceJ (toUpperCase key)) in
  List.length m = 5%nat /\ Forall (fun row => List.length row = 5%nat) m /\
  NoDup (concat m) /\
  (forall ch, In ch (concat m) <-> is_upper ch = true /\ ch <> "J"%char) /\
  (exists pre rest, concat m = pre ++ rest /\ NoDup pre /\ (forall ch, In ch pre <-> In ch k)) /\
  (NoDup k -> exists rest, concat m = k ++ rest).
Proof.
  intros m k. destruct (playfairLetters_spec key) as [Hnd [Hl _]].
  destruct (toGrid_shape _ Hl) as [Hc [Hm Hrows]].
  unfold m, buildPlayfairMatrix. rewrite Hc.
  split; [exact Hm|]. split; [exact Hrows|]. split; [exact Hnd|].
  split; [intros ch; apply grid_letter|].
  unfold playfairLetters. fold k. split.
  - destruct (pushUnseen_prefix (pushUnseen [] k) alphabet) as [rest Hr].
    exists (pushUnseen [] k), rest. split; [exact Hr|].
    split; [apply pushUnseen_NoDup; constructor|].
    intros ch. rewrite pushUnseen_In. cbn. tauto.
  - intros Hk. rewrite (pushUnseen_distinct [] k) by exact Hk.
    apply pushUnseen_prefix.
Qed.

(** On a key's grid, [findPosition] returns [null] exactly for a character
    that is not one of the 25 letters (such as [J], a lowercase letter or a
    digit); otherwise it returns the row and column of the one cell holding
    it. *)
Theorem findPosition_spec (key : text) (ch : ascii) :
  let m := buildPlayfairMatrix key in
  (findPosition m (Some ch) = None <-> ~ (is_upper ch = true /\ ch <> "J"%char)) /\
  (forall r c, findPosition m (Some ch) = Some (r, c) ->
     0 <= r < 5 /\ 0 <= c < 5 /\ gget m r c = Some ch /\
     (forall r' c', 0 <= r' < 5 -> 0 <= c' < 5 -> gget m r' c' = Some ch -> r' = r /\ c' = c)).
Proof.
  intros m. destruct (playfairLetters_spec key) as [Hnd [Hl _]].
  set (g := playfairLetters key) in *.
  assert (Hm : m = toGrid g) by reflexivity. rewrite Hm.
  rewrite <- (grid_letter ch key). fold g.
  destruct (in_dec ascii_dec ch g) as [Hin|Hout].
  - destruct (in_at g ch Hl Hin) as [p [Hp ->]].
    rewrite findPosition_at by assumption. split; [split; [discriminate | tauto]|].
    intros r c E. injection E as <- <-.
    assert (Hr : 0 <= p / 5 < 5) by zlia. assert (Hc : 0 <= p mod 5 < 5) by zlia.
    split; [exact Hr|]. split; [exact Hc|].
    rewrite gget_toGrid by assumption.
    replace (5 * (p / 5) + p mod 5) with p by zlia.
    split; [apply nth_error_at; assumption|].
    intros r' c' Hr' Hc' E. rewrite gget_toGrid in E by assumption.
    rewrite <- (nth_error_at g p Hl Hp) in E.
    apply (proj1 (NoDup_nth_error g) Hnd) in E; [|lia]. zlia.
  - rewrite findPosition_flat, flatFind_absent by assumption.
    split; [tauto|]. discriminate.
Qed.

(** The digrams of [preparePlayfairText(text)] are made of the letters
    [A]-[Z] but [J]; the two letters of a digram are equal only in [XX]; and
    when the cleaned text has even length and distinct letters in each
    pair, the digrams spell it exactly. *)
Theorem preparePlayfairText_spec (T : text) :
  Forall (fun d => (is_upper (fst d) = true /\ fst d <> "J"%char) /\
                   (is_upper (snd d) = true /\ snd d <> "J"%char) /\
                   (fst d = snd d -> fst d = "X"%char)) (preparePlayfairText T) /\
  (digram_ready (onlyAZ (replaceJ (toUpperCase T))) = true ->
   flat (preparePlayfairText T) = onlyAZ (replaceJ (toUpperCase T))).
Proof.
  split.
  - pose proof (digrams_equal_X (onlyAZ (replaceJ (toUpperCase T)))) as HX.
    assert (Hl : Forall (fun d => (is_upper (fst d) = true /\ fst d <> "J"%char) /\
                                  (is_upper (snd d) = true /\ snd d <> "J"%char))
                        (preparePlayfairText T)).
    { apply (digrams_in (fun ch => is_upper ch = true /\ ch <> "J"%char)).
      - split; [reflexivity | discriminate].
      - apply Forall_forall. intros ch Hch.
        apply alphabet_upper, (keyUpper_in_alphabet T), Hch. }
    unfold preparePlayfairText in *. rewrite Forall_forall in *.
    intros d Hd. destruct (Hl d Hd) as [H1 H2]. split; [exact H1|]. split; [exact H2|].
    exact (HX d Hd).
  - intros Hr. unfold preparePlayfairText. apply digrams_ready, Hr.
Qed.

(** [playfairEncrypt] outputs two letters per digram, and no letter of the
    prepared text is encrypted to itself. *)
Theorem playfairEncrypt_moves (T key : text) :
  exists C, playfairEncrypt T key = Some C /\
    List.length C = (2 * List.length (preparePlayfairText T))%nat /\
    (forall i ch, nth_error (flat (preparePlayfairText T)) i = Some ch -> nth_error C i <> Some ch).
Proof.
  destruct (playfairLetters_spec key) as [Hnd [Hl Hin]].
  set (g := playfairLetters key) in *.
  assert (Hd : Forall (fun d => In (fst d) g /\ In (snd d) g) (preparePlayfairText T)).
  { apply (digrams_in (fun ch => In ch g)).
    - exact (proj2 (Hin "X"%char) X_in_alphabet).
    - apply Forall_forall. intros ch Hch.
      exact (proj2 (Hin ch) (keyUpper_in_alphabet T ch Hch)). }
  exact (encLoop_moves g _ Hl Hnd Hd).
Qed.

(** ** Hill, further *)
















(** ** Password enumeration *)

(** The passwords of length [k] over [charset], in the order of a counter
    whose first position varies slowest, as read in [charset]. *)
Fixpoint words (charset : text) (k : nat) : list text :=
  match k with
  | O => [[]]
  | S k => flat_map (fun ch => map (cons ch) (words charset k)) charset
  end.










(** ** Dictionary attack *)

(** A dictionary file holding the given lines, separated by ['\n']. *)
Fixpoint joinLines (ls : list text) : text :=
  match ls with
  | [] => []
  | [w] => w
  | w :: ws => w ++ "010"%char :: joinLines ws
  end.

Lemma text_eqb_true s t : text_eqb s t = true <-> s = t.
Proof. unfold text_eqb. destruct (list_eq_dec ascii_dec s t); split; congruence. Qed.

Lemma splitNl_noNl w : ~ In "010"%char w -> splitNl w = [w].
Proof.
  induction w as [|ch w IH]; intros Hw; [reflexivity|].
  cbn [splitNl]. rewrite IH by (intros H; apply Hw; right; exact H).
  destruct (Ascii.eqb_spec ch "010"%char) as [->|_]; [exfalso; apply Hw; left; reflexivity|].
  reflexivity.
Qed.

Lemma splitNl_app_nl w rest :
  ~ In "010"%char w -> splitNl (w ++ "010"%char :: rest) = w :: splitNl rest.
Proof.
  induction w as [|ch w IH]; intros Hw; [reflexivity|].
  cbn [app splitNl]. rewrite IH by (intros H; apply Hw; right; exact H).
  destruct (Ascii.eqb_spec ch "010"%char) as [->|_]; [exfalso; apply Hw; left; reflexivity|].
  reflexivity.
Qed.

Lemma splitNl_joinLines ls :
  ls <> [] -> Forall (fun l => ~ In "010"%char l) ls -> splitNl (joinLines ls) = ls.
Proof.
  induction ls as [|w ws IH]; intros Hne Hf; [contradiction|].
  inversion Hf as [|? ? Hw Hws]; subst.
  destruct ws as [|w' ws'].
  - apply splitNl_noNl, Hw.
  - change (joinLines (w :: w' :: ws')) with (w ++ "010"%char :: joinLines (w' :: ws')).
    rewrite splitNl_app_nl by exact Hw. rewrite IH by (discriminate || exact Hws). reflexivity.
Qed.

Lemma dictWords_In contents m :
  In m (dictWords contents) <->
  m <> [] /\ exists l, In l (splitNl contents) /\ toLowerCase (trim l) = m.
Proof.
  unfold dictWords. rewrite filter_In, in_map_iff. split.
  - intros [[l [Hm Hl]] Hne]. split; [destruct m; discriminate|]. exists l. split; assumption.
  - intros [Hne [l [Hl Hm]]]. split; [exists l; split; assumption|]. destruct m; [contradiction|reflexivity].
Qed.

Lemma dictionaryAttack_In {A : Type} (f : A -> text) cands contents c m :
  In (c, m) (dictionaryAttack f cands contents) <->
  In c cands /\ m = toLowerCase (f c) /\ In m (dictWords contents).
Proof.
  unfold dictionaryAttack. rewrite in_flat_map. split.
  - intros [c' [Hc' Hin]].
    destruct (existsb (text_eqb (toLowerCase (f c'))) (dictWords contents)) eqn:E; [|destruct Hin].
    destruct Hin as [Heq|[]]. injection Heq as <- <-.
    apply existsb_exists in E. destruct E as [w [Hw Heq]]. apply text_eqb_true in Heq. subst w.
    split; [exact Hc'|]. split; [reflexivity|exact Hw].
  - intros [Hc [-> Hm]]. exists c. split; [exact Hc|].
    replace (existsb (text_eqb (toLowerCase (f c))) (dictWords contents)) with true.
    + left. reflexivity.
    + symmetry. apply existsb_exists. exists (toLowerCase (f c)). split; [exact Hm|].
      apply text_eqb_true. reflexivity.
Qed.

(** For a dictionary file made of lines (without ['\n'] inside a line),
    [dictionaryAttack] reports a candidate, with its lowercased text, exactly
    when that text is non-empty and equals the lowercased trimmed form of
    one of the lines: surrounding blanks and a ['\r'] of a CRLF file do not
    prevent a match, and an empty candidate never matches. *)
Theorem dictionaryAttack_lines {A : Type} (candText : A -> text) (candidates : list A)
    (lines : list text) :
  Forall (fun l => ~ In "010"%char l) lines ->
  forall c m,
    In (c, m) (dictionaryAttack candText candidates (joinLines lines)) <->
    In c candidates /\ m = toLowerCase (candText c) /\ m <> [] /\
    exists l, In l lines /\ toLowerCase (trim l) = m.
Proof.
  intros Hl c m. rewrite dictionaryAttack_In, dictWords_In.
  destruct lines as [|l0 ls].
  - cbn [joinLines splitNl]. split.
    + intros [_ [_ [Hne [l [[<-|[]] Hm]]]]]. exfalso. apply Hne. rewrite <- Hm. reflexivity.
    + intros [_ [_ [_ [l [[] _]]]]].
  - rewrite splitNl_joinLines by (discriminate || exact Hl). reflexivity.
Qed.

(** [dictionaryAttack_lines] on a CRLF dictionary of two words. *)
Lemma dictionaryAttack_lines_witness :
  Forall (fun l => ~ In "010"%char l) [str "Hello" ++ ["013"%char]; str "  world"] /\
  In (str "HELLO", str "hello")
     (dictionaryAttack (fun t => t) [str "HELLO"; str "moon"]
        (joinLines [str "Hello" ++ ["013"%char]; str "  world"])).
Proof.
  assert (Hf : Forall (fun l => ~ In "010"%char l) [str "Hello" ++ ["013"%char]; str "  world"]).
  { repeat constructor; vm_compute; intros H; repeat (destruct H as [H|H]; [discriminate H|]); exact H. }
  split; [exact Hf|].
  apply (proj2 (dictionaryAttack_lines (fun t => t) [str "HELLO"; str "moon"] _ Hf
                  (str "HELLO") (str "hello"))).
  split; [left; reflexivity|]. split; [reflexivity|]. split; [discriminate|].
  exists (str "Hello" ++ ["013"%char]). split; [left; reflexivity|]. vm_compute. reflexivity.
Defined.

(** ** Playfair decryption *)

(** All 625 pairs of cells: the encryption rule undoes the decryption rule,
    and a pair of distinct cells decrypts to distinct cells. *)
Definition idx_ok2 (p q : Z) : bool :=
  let '(d1, d2) := decIdx p q in
  (0 <=? d1) && (d1 <? 25) && (0 <=? d2) && (d2 <? 25) &&
  (let '(e1, e2) := encIdx d1 d2 in (e1 =? p) && (e2 =? q)) &&
  ((p =? q) || negb (d1 =? d2)).

Lemma idx_all_ok2 :
  forallb (fun p => forallb (fun q => idx_ok2 p q) (zrange 25)) (zrange 25) = true.
Proof. vm_compute. reflexivity. Qed.

Lemma idx_ok2_spec p q :
  0 <= p < 25 -> 0 <= q < 25 ->
  0 <= fst (decIdx p q) < 25 /\ 0 <= snd (decIdx p q) < 25 /\
  encIdx (fst (decIdx p q)) (snd (decIdx p q)) = (p, q) /\
  (p <> q -> fst (decIdx p q) <> snd (decIdx p q)).
Proof.
  intros Hp Hq. pose proof idx_all_ok2 as H. rewrite forallb_forall in H.
  specialize (H p (zrange_in 25 p ltac:(lia))). rewrite forallb_forall in H.
  specialize (H q (zrange_in 25 q ltac:(lia))). unfold idx_ok2 in H.
  destruct (decIdx p q) as [d1 d2]. destruct (encIdx d1 d2) as [e1 e2] eqn:Ee.
  repeat rewrite andb_true_iff in H.
  destruct H as [[[[[H1 H2] H3] H4] [H5 H6]] H7].
  apply Z.leb_le in H1. apply Z.ltb_lt in H2. apply Z.leb_le in H3. apply Z.ltb_lt in H4.
  apply Z.eqb_eq in H5. apply Z.eqb_eq in H6. cbn [fst snd]. rewrite Ee. subst.
  split; [lia|]. split; [lia|]. split; [reflexivity|].
  intros Hpq Hd. subst d2. apply orb_true_iff in H7.
  destruct H7 as [H7|H7]; [apply Z.eqb_eq in H7; contradiction|].
  rewrite Z.eqb_refl in H7. discriminate.
Qed.

Lemma decDigram_inverse g x y :
  List.length g = 25%nat -> NoDup g -> In x g -> In y g ->
  exists x' y', In x' g /\ In y' g /\
    decDigram (toGrid g) (Some x) (Some y) = Some [x'; y'] /\
    encDigram (toGrid g) (Some x') (Some y') = Some [x; y] /\
    (x <> y -> x' <> y').
Proof.
  intros Hl Hnd Hx Hy.
  destruct (in_at g x Hl Hx) as [p [Hp ->]]. destruct (in_at g y Hl Hy) as [q [Hq ->]].
  destruct (idx_ok2_spec p q Hp Hq) as [H1 [H2 [H3 H4]]].
  exists (at_ g (fst (decIdx p q))), (at_ g (snd (decIdx p q))).
  split; [apply at_in; assumption|]. split; [apply at_in; assumption|].
  split; [apply decDigram_at; assumption|].
  split; [rewrite encDigram_at by assumption; rewrite H3; reflexivity|].
  intros Hne E. apply at_inj in E; try assumption.
  apply H4; [intros ->; apply Hne; reflexivity|exact E].
Qed.

Lemma decDigram_absent g x y :
  List.length g = 25%nat -> (~ In x g \/ y = None \/ exists y', y = Some y' /\ ~ In y' g) ->
  decDigram (toGrid g) (Some x) y = None.
Proof.
  intros Hl H. unfold decDigram. rewrite !findPosition_flat by exact Hl.
  destruct H as [Hx|[->|[y' [-> Hy]]]].
  - rewrite flatFind_absent by exact Hx. reflexivity.
  - rewrite flatFind_undefined. destruct (flatFind g (Some x) 0) as [[? ?]|]; reflexivity.
  - rewrite (flatFind_absent g y') by exact Hy.
    destruct (flatFind g (Some x) 0) as [[? ?]|]; reflexivity.
Qed.

Lemma decDigram_present g x y :
  List.length g = 25%nat -> NoDup g -> In x g -> In y g ->
  exists s, decDigram (toGrid g) (Some x) (Some y) = Some s.
Proof.
  intros Hl Hnd Hx Hy. destruct (decDigram_inverse g x y Hl Hnd Hx Hy) as [x' [y' [_ [_ [H _]]]]].
  eexists. exact H.
Qed.

(** [decLoop] fails exactly on a letter outside the grid or an odd length. *)
Lemma decLoop_none g t :
  List.length g = 25%nat -> NoDup g ->
  decLoop (toGrid g) t = None <->
  (exists ch, In ch t /\ ~ In ch g) \/ Nat.odd (List.length t) = true.
Proof.
  intros Hl Hnd. revert t. fix IH 1. intros [|x [|y r]].
  - cbn. split; [discriminate|]. intros [[ch [[] _]]|H]; discriminate.
  - cbn [decLoop]. rewrite decDigram_absent by (exact Hl || (right; left; reflexivity)).
    split; [intros _; right; reflexivity|reflexivity].
  - cbn [decLoop]. specialize (IH r).
    replace (Nat.odd (List.length (x :: y :: r))) with (Nat.odd (List.length r))
      by (cbn [List.length]; rewrite Nat.odd_succ_succ; reflexivity).
    destruct (in_dec ascii_dec x g) as [Hx|Hx];
      [destruct (in_dec ascii_dec y g) as [Hy|Hy]|].
    + destruct (decDigram_present g x y Hl Hnd Hx Hy) as [s Hs]. rewrite Hs.
      destruct (decLoop (toGrid g) r) as [r'|] eqn:Er.
      * split; [discriminate|]. intros [[ch [Hin Hch]]|Ho].
        -- destruct Hin as [<-|[<-|Hin]]; [contradiction|contradiction|].
           exfalso. assert (Hn : Some r' = None) by (apply IH; left; exists ch; split; assumption).
           discriminate.
        -- exfalso. assert (Hn : Some r' = None) by (apply IH; right; exact Ho). discriminate.
      * split; [|reflexivity]. intros _. destruct (proj1 IH eq_refl) as [[ch [Hin Hch]]|Ho].
        -- left. exists ch. split; [right; right; exact Hin|exact Hch].
        -- right. exact Ho.
    + rewrite decDigram_absent by (exact Hl || (right; right; exists y; split; [reflexivity|exact Hy])).
      split; [intros _; left; exists y; split; [right; left; reflexivity|exact Hy]|reflexivity].
    + rewrite decDigram_absent by (exact Hl || (left; exact Hx)).
      split; [intros _; left; exists x; split; [left; reflexivity|exact Hx]|reflexivity].
Qed.

Lemma decLoop_some g t P :
  List.length g = 25%nat -> NoDup g -> decLoop (toGrid g) t = Some P ->
  Forall (fun ch => In ch g) P /\ List.length P = List.length t.
Proof.
  intros Hl Hnd. revert t P. fix IH 1. intros [|x [|y r]] P HP.
  - injection HP as <-. split; [constructor|reflexivity].
  - cbn [decLoop] in HP. rewrite decDigram_absent in HP by (exact Hl || (right; left; reflexivity)).
    discriminate.
  - cbn [decLoop] in HP.
    destruct (in_dec ascii_dec x g) as [Hx|Hx];
      [destruct (in_dec ascii_dec y g) as [Hy|Hy]|].
    + destruct (decDigram_inverse g x y Hl Hnd Hx Hy) as [x' [y' [Hx' [Hy' [Hd _]]]]].
      rewrite Hd in HP. destruct (decLoop (toGrid g) r) as [r'|] eqn:Er; [|discriminate].
      injection HP as <-. destruct (IH r r' Er) as [Hf Hlen].
      split; [repeat constructor; assumption|]. cbn [app List.length]. lia.
    + rewrite decDigram_absent in HP
        by (exact Hl || (right; right; exists y; split; [reflexivity|exact Hy])).
      discriminate.
    + rewrite decDigram_absent in HP by (exact Hl || (left; exact Hx)). discriminate.
Qed.

Lemma decLoop_ready g t :
  List.length g = 25%nat -> NoDup g ->
  Forall (fun ch => In ch g) t -> digram_ready t = true ->
  exists P, decLoop (toGrid g) t = Some P /\ digram_ready P = true /\
    encLoop (toGrid g) (digrams P) = Some t.
Proof.
  intros Hl Hnd. revert t. fix IH 1. intros [|x [|y r]] Hf Hr.
  - exists []. split; [reflexivity|]. split; reflexivity.
  - discriminate.
  - cbn [digram_ready] in Hr. apply andb_true_iff in Hr as [Hxy Hr].
    apply negb_true_iff in Hxy.
    inversion Hf as [|? ? Hx Hf']. inversion Hf' as [|? ? Hy Hr']. subst.
    destruct (decDigram_inverse g x y Hl Hnd Hx Hy) as [x' [y' [_ [_ [Hd [He Hne]]]]]].
    destruct (IH r Hr' Hr) as [P [HP [HPr HPe]]].
    exists (x' :: y' :: P). cbn [decLoop]. rewrite Hd, HP. split; [reflexivity|].
    assert (Hxy' : x' <> y').
    { apply Hne. intros E. subst. rewrite Ascii.eqb_refl in Hxy. discriminate. }
    cbn [digram_ready]. rewrite HPr.
    destruct (Ascii.eqb_spec x' y') as [E|_]; [contradiction|].
    split; [reflexivity|].
    cbn [digrams]. destruct (ascii_dec x' y') as [E|_]; [contradiction|].
    cbn [encLoop]. rewrite He, HPe. reflexivity.
Qed.

(** [playfairDecrypt] throws exactly when the cleaned ciphertext contains a
    J (absent from the grid) or has an odd length. On success it returns as
    many letters, all uppercase and none a J; when the cleaned text is made
    of digrams of distinct letters (as every [playfairEncrypt] output is),
    encrypting the result gives the cleaned text back. *)
Theorem playfairDecrypt_spec (T key : text) :
  let t := onlyAZ (toUpperCase T) in
  (playfairDecrypt T key = None <-> In "J"%char t \/ Nat.odd (List.length t) = true) /\
  (forall P, playfairDecrypt T key = Some P ->
     List.length P = List.length t /\ all_upper P /\ ~ In "J"%char P) /\
  (digram_ready t = true -> ~ In "J"%char t ->
     exists P, playfairDecrypt T key = Some P /\ playfairEncrypt P key = Some t).
Proof.
  intros t. destruct (playfairLetters_spec key) as [Hnd [Hl _]].
  set (g := playfairLetters key) in *.
  assert (Ht : all_upper t) by apply onlyAZ_all_upper.
  assert (HP : forall P, playfairDecrypt T key = Some P ->
            Forall (fun ch => In ch g) P /\ List.length P = List.length t).
  { intros P H. exact (decLoop_some g t P Hl Hnd H). }
  assert (Hg : forall P, Forall (fun ch => In ch g) P -> all_upper P /\ ~ In "J"%char P).
  { intros P H. rewrite Forall_forall in H. split.
    - apply Forall_forall. intros ch Hch. exact (proj1 (proj1 (grid_letter ch key) (H ch Hch))).
    - intros HJ. apply (proj2 (proj1 (grid_letter _ key) (H _ HJ))). reflexivity. }
  split; [|split].
  - unfold playfairDecrypt, buildPlayfairMatrix. fold g t.
    rewrite (decLoop_none g t Hl Hnd). split.
    + intros [[ch [Hin Hch]]|Ho]; [left|right; exact Ho].
      destruct (ascii_dec ch "J"%char) as [->|E]; [exact Hin|].
      exfalso. apply Hch. apply grid_letter. split; [|exact E].
      unfold all_upper in Ht. rewrite Forall_forall in Ht. apply Ht, Hin.
    + intros [HJ|Ho]; [left|right; exact Ho].
      exists "J"%char. split; [exact HJ|]. intros H. apply grid_letter in H.
      apply (proj2 H). reflexivity.
  - intros P H. destruct (HP P H) as [Hf Hlen]. destruct (Hg P Hf) as [Hu HJ].
    split; [exact Hlen|]. split; assumption.
  - intros Hr HJ.
    assert (Hf : Forall (fun ch => In ch g) t).
    { apply Forall_forall. intros ch Hch. apply grid_letter. split.
      - unfold all_upper in Ht. rewrite Forall_forall in Ht. apply Ht, Hch.
      - intros ->. contradiction. }
    destruct (decLoop_ready g t Hl Hnd Hf Hr) as [P [HdP [_ HeP]]].
    exists P. split; [exact HdP|].
    destruct (HP P HdP) as [HfP _]. destruct (Hg P HfP) as [Hu HJP].
    unfold playfairEncrypt, preparePlayfairText, buildPlayfairMatrix. fold g.
    rewrite toUpperCase_upper, replaceJ_noJ, onlyAZ_upper by assumption.
    exact HeP.
Qed.
